(** * flagged-bitfield: a shallow embedding of [src/mod.ts]

    The class [FlaggedBitfield] keeps a [bigint] inside the mask of a flag
    definition.  Instances are JavaScript objects: they are mutated in place
    ([add], [remove], [invert], [freeze]), they are passed around by reference
    (an instance is itself an accepted "bits" input) and the derivation
    methods allocate new ones.  The embedding therefore threads an explicit
    store of instances through every method, in a small state-and-failure
    monad; a [bigint] is a [Z], and the bitwise operators are [Z.land],
    [Z.lor], [Z.lxor] and [Z.lnot]. *)

From stdpp Require Import base numbers list strings option relations sorting
  gmap.

Local Open Scope Z_scope.
#[local] Set Warnings "-register-all".

(** ** Data *)

(** [type Flags = Record<string, bigint | number>]: the own properties of the
    object, in property order.  [BigInt(v)] of an integral number is the
    integer itself, so a declared value is a [Z].  The keys of an object are
    distinct; a lookup in the list finds the first entry of a key, and only
    the statements that say so assume the keys distinct. *)
Abbreviation FlagsObject := (list (string * Z)).

(** The static side of a subclass: [static Flags] and [static DefaultBit]. *)
Record Class := { Flags : FlagsObject; DefaultBit : Z }.

(** A reference to an instance: its index in the store. *)
Abbreviation loc := nat.

(** [Bit<T>] as [resolve] inspects it at run time.  [BNumber] is an integral
    [number]; [BNonInteger] is any other [number] ([1.5], [NaN], [Infinity]),
    on which [BigInt(bits)] throws a [RangeError]; [BOther] stands for every
    value whose type no branch of [resolve] tests for ([null], a symbol, a
    function, a plain object), so that it falls through to [return 0n]. *)
Inductive Bit :=
| BUndefined
| BBoolean (b : bool)
| BNumber (n : Z)
| BBigInt (n : Z)
| BString (s : string)
| BInstance (l : loc)
| BArray (bs : list Bit)
| BOther
| BNonInteger.

(** The private fields [#bitfield], [#con], [#validFlags] and [#frozen]. *)
Record Instance := {
  bitfield : Z;
  con : Class;
  validFlags : list (string * Z);
  frozen : bool
}.

Abbreviation heap := (list Instance).

Definition set_bitfield (v : Z) (o : Instance) : Instance :=
  {| bitfield := v; con := con o; validFlags := validFlags o;
     frozen := frozen o |}.

Definition set_frozen (f : bool) (o : Instance) : Instance :=
  {| bitfield := bitfield o; con := con o; validFlags := validFlags o;
     frozen := f |}.

(** ** The monad of methods: a store of instances, and failure.  A call
    that fails does not return: it throws (the [RangeError] of [BigInt] on a
    number that is not an integer), or it was handed a reference that points
    nowhere, which JavaScript cannot build. *)

Definition M (A : Type) : Type := heap → option (A * heap).

Definition ret {A} (a : A) : M A := λ h, Some (a, h).

Definition bind {A B} (m : M A) (k : A → M B) : M B :=
  λ h, match m h with
       | Some (a, h') => k a h'
       | None => None
       end.

Notation "x <- m ;; k" := (bind m (λ x, k))
  (at level 100, m at next level, right associativity).

(** Read the object behind a reference. *)
Definition deref (l : loc) : M Instance :=
  λ h, match h !! l with
       | Some o => Some (o, h)
       | None => None
       end.

(** Assign the object behind a reference. *)
Definition assign (l : loc) (o : Instance) : M unit :=
  λ h, Some (tt, <[l := o]> h).

(** Allocate a new object; its reference is fresh. *)
Definition alloc (o : Instance) : M loc :=
  λ h, Some (length h, h ++ [o]).

(** ** Static methods *)

(** [Object.values(ob)], [Reflect.ownKeys(ob)], [ob[key]] and [safeIn]. *)
Definition Object_values (ob : FlagsObject) : list Z := ob.*2.

Definition Reflect_ownKeys (ob : FlagsObject) : list string := ob.*1.

Fixpoint get (ob : FlagsObject) (key : string) : option Z :=
  match ob with
  | [] => None
  | (k, v) :: rest => if decide (k = key) then Some v else get rest key
  end.

Definition safeIn (ob : FlagsObject) (key : string) : bool :=
  match get ob key with
  | Some _ => true
  | None => false
  end.

(** [getMask]: the declared values OR-reduced from [0n]. *)
Definition getMask (c : Class) : Z :=
  fold_left (λ a b, Z.lor a b) (Object_values (Flags c)) 0.

(** [getMaxBit]: the declared values MAX-reduced from [0n]. *)
Definition getMaxBit (c : Class) : Z :=
  fold_left (λ a b, if a >? b then a else b) (Object_values (Flags c)) 0.

(** [resolve].  It only reads the store, so it is a function of the store;
    [None] is the [RangeError] that [BigInt(bits)] throws in the numeric
    branch on a number that is not an integer (or a dangling reference).  A
    boolean is first turned into a bigint and then falls into the numeric
    branch. *)
Fixpoint resolve (c : Class) (h : heap) (bits : Bit) : option Z :=
  match bits with
  | BArray bs =>
      fold_left
        (λ a b, match a, resolve c h b with
                | Some a, Some r => Some (Z.lor a r)
                | _, _ => None
                end)
        bs (Some 0)
  | BUndefined => Some 0
  | BBoolean b => Some (Z.land (Z.b2z b) (getMask c))
  | BInstance l => bitfield <$> h !! l
  | BNumber n | BBigInt n => Some (Z.land n (getMask c))
  | BString s =>
      if safeIn (Flags c) s
      then Some (default 0 (get (Flags c) s))
      else Some 0
  | BOther => Some 0
  | BNonInteger => None
  end.

Definition resolveM (c : Class) (bits : Bit) : M Z :=
  λ h, match resolve c h bits with
       | Some v => Some (v, h)
       | None => None
       end.

(** ** The constructor *)

(** [Array.prototype.sort] with a comparator: each element goes, in turn,
    in front of the first element of the sorted prefix that it compares
    below (a stable insertion sort, as the engines do for short arrays). *)
Fixpoint sort_insert {A} (cmp : A → A → Z) (x : A) (l : list A) : list A :=
  match l with
  | [] => [x]
  | y :: l' => if cmp x y <? 0 then x :: y :: l' else y :: sort_insert cmp x l'
  end.

Definition Array_sort {A} (cmp : A → A → Z) (l : list A) : list A :=
  fold_left (λ acc x, sort_insert cmp x acc) l [].

(** [(a, b) => (a[1] < b[1] ? -1 : 1)] *)
Definition compareFlags (a b : string * Z) : Z :=
  if a.2 <? b.2 then -1 else 1.

(** [Reflect.ownKeys(Flags).map(k => [k, BigInt(Flags[k]!)])]; an own key
    always has a value, so the default of the lookup is never used. *)
Definition ownEntries (c : Class) : list (string * Z) :=
  (λ k, (k, default 0 (get (Flags c) k))) <$> Reflect_ownKeys (Flags c).

(** [... .sort((a, b) => (a[1] < b[1] ? -1 : 1))], the value of
    [#validFlags]. *)
Definition orderedFlags (c : Class) : list (string * Z) :=
  Array_sort compareFlags (ownEntries c).

(** [new C(bits)].  The parameter default [bits = this.#bitfield] (which
    holds [DefaultBit] at that point) applies when the argument is absent or
    [undefined]. *)
Definition new (c : Class) (bits : Bit) : M loc :=
  let bits := match bits with
              | BUndefined => BBigInt (DefaultBit c)
              | _ => bits
              end in
  v <- resolveM c bits ;;
  alloc {| bitfield := v; con := c; validFlags := orderedFlags c;
           frozen := false |}.

(** ** Mutating methods *)

(** [if (this.#frozen) return this;
    this.#bitfield = (this.#bitfield | resolve(bit)) & getMask()] *)
Definition add (this : loc) (bit : Bit) : M loc :=
  o <- deref this ;;
  if frozen o then ret this else
  r <- resolveM (con o) bit ;;
  _ <- assign this
         (set_bitfield (Z.land (Z.lor (bitfield o) r) (getMask (con o))) o) ;;
  ret this.

(** [if (this.#frozen) return this;
    this.#bitfield = this.#bitfield & ~resolve(bit) & getMask()] *)
Definition remove (this : loc) (bit : Bit) : M loc :=
  o <- deref this ;;
  if frozen o then ret this else
  r <- resolveM (con o) bit ;;
  _ <- assign this
         (set_bitfield
            (Z.land (Z.land (bitfield o) (Z.lnot r)) (getMask (con o))) o) ;;
  ret this.

(** [return new this.#con(~this.#bitfield & getMask())] *)
Definition missing (this : loc) : M loc :=
  o <- deref this ;;
  new (con o) (BBigInt (Z.land (Z.lnot (bitfield o)) (getMask (con o)))).

(** [if (this.#frozen) return this;
    this.#bitfield = this.missing().bitfield] *)
Definition invert (this : loc) : M loc :=
  o <- deref this ;;
  if frozen o then ret this else
  m <- missing this ;;
  om <- deref m ;;
  o' <- deref this ;;
  _ <- assign this (set_bitfield (bitfield om) o') ;;
  ret this.

(** [freeze]: [Object.freeze(this)] does not reach the private fields, so
    the assignment to [#frozen] is all the store sees. *)
Definition freeze (this : loc) : M loc :=
  o <- deref this ;;
  _ <- assign this (set_frozen true o) ;;
  ret this.

(** ** Derivation methods *)

(** [with]: [return new this.#con(this.#bitfield).add(bit)] *)
Definition with_ (this : loc) (bit : Bit) : M loc :=
  o <- deref this ;;
  n <- new (con o) (BBigInt (bitfield o)) ;;
  add n bit.

(** [return new this.#con(this.#bitfield).remove(bit)] *)
Definition without (this : loc) (bit : Bit) : M loc :=
  o <- deref this ;;
  n <- new (con o) (BBigInt (bitfield o)) ;;
  remove n bit.

(** [return this.with(bit)] *)
Definition union (this : loc) (bit : Bit) : M loc := with_ this bit.

(** [return new this.#con(this.#bitfield & resolve(bit))] *)
Definition intersection (this : loc) (bit : Bit) : M loc :=
  o <- deref this ;;
  r <- resolveM (con o) bit ;;
  new (con o) (BBigInt (Z.land (bitfield o) r)).

(** [return new this.#con(this.#bitfield & ~resolve(bit))] *)
Definition difference (this : loc) (bit : Bit) : M loc :=
  o <- deref this ;;
  r <- resolveM (con o) bit ;;
  new (con o) (BBigInt (Z.land (bitfield o) (Z.lnot r))).

(** [return new this.#con(this.#bitfield ^ resolve(bit))] *)
Definition symmetricDifference (this : loc) (bit : Bit) : M loc :=
  o <- deref this ;;
  r <- resolveM (con o) bit ;;
  new (con o) (BBigInt (Z.lxor (bitfield o) r)).

(** [return this.missing()] *)
Definition complement (this : loc) : M loc := missing this.

(** ** Queries *)

(** [return (this.#bitfield & resolve(bit)) !== 0n] *)
Definition has (this : loc) (bit : Bit) : M bool :=
  o <- deref this ;;
  r <- resolveM (con o) bit ;;
  ret (negb (Z.land (bitfield o) r =? 0)).

(** [return this.#bitfield === resolve(bit)] *)
Definition equals (this : loc) (bit : Bit) : M bool :=
  o <- deref this ;;
  r <- resolveM (con o) bit ;;
  ret (bitfield o =? r).

(** [return this.intersection(bit).bitfield !== 0n] *)
Definition any (this : loc) (bit : Bit) : M bool :=
  i <- intersection this bit ;;
  oi <- deref i ;;
  ret (negb (bitfield oi =? 0)).

(** [return this.#frozen] *)
Definition isFrozen (this : loc) : M bool :=
  o <- deref this ;;
  ret (frozen o).

(** ** Enumeration *)

(** The generator [*[Symbol.iterator]]: the names it yields, in order. *)
Fixpoint yield_present (value : Z) (flags : list (string * Z)) : list string :=
  match flags with
  | [] => []
  | (flag, bit) :: rest =>
      if negb (Z.land value bit =? 0)
      then flag :: yield_present value rest
      else yield_present value rest
  end.

Definition Symbol_iterator (this : loc) : M (list string) :=
  o <- deref this ;;
  ret (yield_present (bitfield o) (validFlags o)).

(** [return [...this]] *)
Definition toArray (this : loc) : M (list string) := Symbol_iterator this.

(** [entries] returns [#validFlags]; callers are taken not to write to the
    array they receive. *)
Definition entries (this : loc) : M (list (string * Z)) :=
  o <- deref this ;;
  ret (validFlags o).

(** The loop of [findIndex], entered at index [i] with the flags from [i]
    on still to visit. *)
Fixpoint findIndex_from (predicate : string → bool) (i : Z)
    (flags : list (string * Z)) : Z :=
  match flags with
  | [] => -1
  | (flag, _) :: rest =>
      if predicate flag then i else findIndex_from predicate (i + 1) rest
  end.

(** [for (let i = 0; i < this.#validFlags.length; i++)
      if (predicate(this.#validFlags[i][0])) return i;
    return -1] *)
Definition findIndex (this : loc) (predicate : string → bool) : M Z :=
  o <- deref this ;;
  ret (findIndex_from predicate 0 (validFlags o)).

Fixpoint find_first (predicate : string → bool) (names : list string)
    : option string :=
  match names with
  | [] => None
  | f :: rest => if predicate f then Some f else find_first predicate rest
  end.

(** [for (const f of this) if (predicate(f)) return f; return undefined] *)
Definition find (this : loc) (predicate : string → bool)
    : M (option string) :=
  names <- Symbol_iterator this ;;
  ret (find_first predicate names).

(** [return this.#validFlags.map(([k]) => k)] *)
Definition keys (this : loc) : M (list string) :=
  o <- deref this ;;
  ret ((validFlags o).*1).

(** [return this.#validFlags.map(([, v]) => v)] *)
Definition values (this : loc) : M (list Z) :=
  o <- deref this ;;
  ret ((validFlags o).*2).

(** [map]: [const r = []; for (const f of this) r.push(callback(f));
    return r], for a callback without effects. *)
Definition map_ {R} (this : loc) (callback : string → R) : M (list R) :=
  names <- Symbol_iterator this ;;
  ret (fold_left (λ r f, r ++ [callback f]) names []).

(** [Object.keys(ob)]: the enumerable own string keys, in property order. *)
Definition Object_keys (ob : FlagsObject) : list string := ob.*1.

(** [Object.assign(r, { [k]: v })] on the plain object [r], whose own
    properties are a finite map (their order is not modelled): the
    assignment stores an own property, except for the key [__proto__], which
    reaches the setter of [Object.prototype]; that setter ignores a boolean
    and no own property is stored. *)
Definition Object_assign (r : gmap string bool) (k : string) (v : bool)
    : gmap string bool :=
  if decide (k = "__proto__"%string) then r else <[k := v]> r.

(** The loop of [toObject]:
    [for (const k of keys) Object.assign(r, { [k]: this.has(k) })]. *)
Fixpoint toObject_loop (this : loc) (ks : list string)
    (r : gmap string bool) : M (gmap string bool) :=
  match ks with
  | [] => ret r
  | k :: rest =>
      b <- has this (BString k) ;;
      toObject_loop this rest (Object_assign r k b)
  end.

(** [toObject]: [const r = {}; for (const k of Object.keys(this.#con.Flags))
    ...; return r]. *)
Definition toObject (this : loc) : M (gmap string bool) :=
  o <- deref this ;;
  toObject_loop this (Object_keys (Flags (con o))) ∅.

(** ** Method calls as data *)

(** The eight derivation methods. *)
Inductive Derivation :=
| With (bit : Bit)
| Without (bit : Bit)
| Union (bit : Bit)
| Missing
| Complement
| Intersection (bit : Bit)
| Difference (bit : Bit)
| SymmetricDifference (bit : Bit).

Definition derive (d : Derivation) (this : loc) : M loc :=
  match d with
  | With bit => with_ this bit
  | Without bit => without this bit
  | Union bit => union this bit
  | Missing => missing this
  | Complement => complement this
  | Intersection bit => intersection this bit
  | Difference bit => difference this bit
  | SymmetricDifference bit => symmetricDifference this bit
  end.

(** The three guarded mutators. *)
Inductive Mutation :=
| Add (bit : Bit)
| Remove (bit : Bit)
| Invert.

Definition mutate (m : Mutation) (this : loc) : M loc :=
  match m with
  | Add bit => add this bit
  | Remove bit => remove this bit
  | Invert => invert this
  end.

(** Every call that allocates or assigns. *)
Inductive Call :=
| CNew (c : Class) (bits : Bit)
| CMutate (this : loc) (m : Mutation)
| CFreeze (this : loc)
| CDerive (this : loc) (d : Derivation)
| CAny (this : loc) (bit : Bit).

Definition exec (call : Call) : M unit :=
  match call with
  | CNew c bits => _ <- new c bits ;; ret tt
  | CMutate this m => _ <- mutate m this ;; ret tt
  | CFreeze this => _ <- freeze this ;; ret tt
  | CDerive this d => _ <- derive d this ;; ret tt
  | CAny this bit => _ <- any this bit ;; ret tt
  end.

(** A program is a sequence of calls, run from a store. *)
Fixpoint run (calls : list Call) (h : heap) : option heap :=
  match calls with
  | [] => Some h
  | call :: rest =>
      match exec call h with
      | Some (_, h') => run rest h'
      | None => None
      end
  end.

(** ** Well-formed references *)

(** An accepted input: every reference inside [bits] points into the store
    and every number inside is an integer. *)
Fixpoint bits_wf (h : heap) (bits : Bit) : bool :=
  match bits with
  | BInstance l => bool_decide (l < length h)%nat
  | BArray bs => forallb (bits_wf h) bs
  | BNonInteger => false
  | _ => true
  end.

Definition derivation_bits (d : Derivation) : Bit :=
  match d with
  | With b | Without b | Union b | Intersection b | Difference b
  | SymmetricDifference b => b
  | Missing | Complement => BUndefined
  end.

Definition mutation_bits (m : Mutation) : Bit :=
  match m with
  | Add b | Remove b => b
  | Invert => BUndefined
  end.

(** ** The mask invariant *)

(** [value & ~mask == 0] *)
Definition within (mask value : Z) : Prop := Z.land value (Z.lnot mask) = 0.

Definition invariant (o : Instance) : Prop :=
  within (getMask (con o)) (bitfield o).

Definition heap_invariant (h : heap) : Prop :=
  ∀ l o, h !! l = Some o → invariant o.

(** The invariant of the instance behind one reference, whatever the other
    instances hold (and nothing when the reference is not allocated). *)
Definition invariant_at (l : loc) (h : heap) : Prop :=
  ∀ o, h !! l = Some o → invariant o.

(** Every instance inside [bits] holds a value within [mask]. *)
Fixpoint instances_within (mask : Z) (h : heap) (bits : Bit) : Prop :=
  match bits with
  | BInstance l =>
      match h !! l with
      | Some o => within mask (bitfield o)
      | None => False
      end
  | BArray bs => foldr (λ b P, instances_within mask h b ∧ P) True bs
  | _ => True
  end.

(** Every instance inside [bits] is an instance of the class [c]. *)
Fixpoint instances_of (c : Class) (h : heap) (bits : Bit) : Prop :=
  match bits with
  | BInstance l =>
      match h !! l with
      | Some o => con o = c
      | None => False
      end
  | BArray bs => foldr (λ b P, instances_of c h b ∧ P) True bs
  | _ => True
  end.

(** ** Induction on [Bit], through the arrays *)

Section Bit_induction.
Variable P : Bit → Prop.
Hypothesis Hundefined : P BUndefined.
Hypothesis Hboolean : ∀ b, P (BBoolean b).
Hypothesis Hnumber : ∀ n, P (BNumber n).
Hypothesis Hbigint : ∀ n, P (BBigInt n).
Hypothesis Hstring : ∀ s, P (BString s).
Hypothesis Hinstance : ∀ l, P (BInstance l).
Hypothesis Harray : ∀ bs, Forall P bs → P (BArray bs).
Hypothesis Hother : P BOther.
Hypothesis Hnoninteger : P BNonInteger.

Fixpoint Bit_nested_ind (bits : Bit) : P bits :=
  match bits with
  | BUndefined => Hundefined
  | BBoolean b => Hboolean b
  | BNumber n => Hnumber n
  | BBigInt n => Hbigint n
  | BString s => Hstring s
  | BInstance l => Hinstance l
  | BArray bs =>
      Harray bs
        ((fix all (bs : list Bit) : Forall P bs :=
            match bs with
            | [] => @List.Forall_nil Bit P
            | b :: bs' =>
                @List.Forall_cons Bit P b bs' (Bit_nested_ind b) (all bs')
            end) bs)
  | BOther => Hother
  | BNonInteger => Hnoninteger
  end.
End Bit_induction.

(** ** Vocabulary of the statements *)

(** The reducer of [resolve] on arrays: [(a, b) => a | this.resolve(b)]. *)
Definition or_step (c : Class) (h : heap) (a : option Z) (b : Bit) : option Z :=
  match a, resolve c h b with
  | Some a, Some r => Some (Z.lor a r)
  | _, _ => None
  end.

(** The object a constructor call allocates. *)
Definition fresh (c : Class) (v : Z) : Instance :=
  {| bitfield := v; con := c; validFlags := orderedFlags c; frozen := false |}.

(** The value of the instance a derivation returns: what the method hands
    to the constructor, masked by the constructor and, for [with] and
    [without], changed and masked again by the mutator on the copy; [v] is
    the receiver's value, [r] the resolved argument, [m] the mask. *)
Definition derived_value (d : Derivation) (v r m : Z) : Z :=
  match d with
  | With _ | Union _ => Z.land (Z.lor (Z.land v m) r) m
  | Without _ => Z.land (Z.land (Z.land v m) (Z.lnot r)) m
  | Missing | Complement => Z.land (Z.land (Z.lnot v) m) m
  | Intersection _ => Z.land (Z.land v r) m
  | Difference _ => Z.land (Z.land v (Z.lnot r)) m
  | SymmetricDifference _ => Z.land (Z.lxor v r) m
  end.

(** The value a mutator assigns to an unfrozen receiver. *)
Definition mutated_value (mu : Mutation) (v r m : Z) : Z :=
  match mu with
  | Add _ => Z.land (Z.lor v r) m
  | Remove _ => Z.land (Z.land v (Z.lnot r)) m
  | Invert => Z.land (Z.land (Z.lnot v) m) m
  end.

(** ** The elementary changes of the store *)

(** Apart from the constructor, whose stored value depends on what its
    argument resolves to, a call changes the store only by allocating a
    masked unfrozen instance, by assigning a masked value to an unfrozen
    instance, or by freezing an instance. *)
Inductive change : heap → heap → Prop :=
| change_alloc h c v :
    change h (h ++ [fresh c (Z.land v (getMask c))])
| change_assign h this o v :
    h !! this = Some o → frozen o = false →
    change h (<[this := set_bitfield (Z.land v (getMask (con o))) o]> h)
| change_freeze h this o :
    h !! this = Some o →
    change h (<[this := set_frozen true o]> h).

(** ** Stores built by programs *)

(** A store that some sequence of calls builds from the empty store. *)
Definition built (h : heap) : Prop := ∃ calls, run calls [] = Some h.

(** Every instance keeps the ordered flags of its class, as the constructor
    computed them. *)
Definition consistent (h : heap) : Prop :=
  ∀ l o, h !! l = Some o → validFlags o = orderedFlags (con o).

(** ** Ascending order *)

(** Ascending by declared value. *)
Definition ascending (flags : list (string * Z)) : Prop :=
  StronglySorted (λ a b, a.2 ≤ b.2) flags.

(** ** Stores reached by admissible calls *)

(** A constructor call is admissible when every instance inside its argument
    holds a value within the mask of the class being constructed; every
    other call is admissible whatever its argument. *)
Definition admissible (h : heap) (call : Call) : Prop :=
  match call with
  | CNew c bits => instances_within (getMask c) h bits
  | _ => True
  end.

Inductive reachable : heap → Prop :=
| reachable_empty : reachable []
| reachable_call h call u h' :
    reachable h → admissible h call → exec call h = Some (u, h') →
    reachable h'.

(** Every call of a program is admissible in the store it runs in. *)
Fixpoint admissible_run (calls : list Call) (h : heap) : Prop :=
  match calls with
  | [] => True
  | call :: rest =>
      admissible h call
      ∧ match exec call h with
        | Some (_, h') => admissible_run rest h'
        | None => True
        end
  end.

(** ** Example classes *)

(** [static Flags = { Read: 1n, Write: 2n, Execute: 4n, Admin: 8n }] *)
Definition Permissions : Class :=
  {| Flags := [("Read"%string, 1); ("Write"%string, 2);
               ("Execute"%string, 4); ("Admin"%string, 8)];
     DefaultBit := 0 |}.

(** A definition with one flag, and one that declares a second flag too. *)
Definition ReadOnly : Class :=
  {| Flags := [("Read"%string, 1)]; DefaultBit := 0 |}.

Definition ReadWrite : Class :=
  {| Flags := [("Read"%string, 1); ("Write"%string, 2)]; DefaultBit := 0 |}.

(** A definition that declares a flag with value [0n]. *)
Definition WithNone : Class :=
  {| Flags := [("Read"%string, 1); ("None"%string, 0)]; DefaultBit := 0 |}.

(** [const w = new ReadWrite('Write'); const r = new ReadOnly(w)]: the
    second instance is built from an instance of the wider definition. *)
Definition mixed_program : list Call :=
  [CNew ReadWrite (BString "Write"); CNew ReadOnly (BInstance 0%nat)].

Definition mixed_store : heap :=
  [fresh ReadWrite 2; fresh ReadOnly 2].

(** Two definitions that declare the same flag name with different values,
    [static Flags = { Flag: 1n }] and [static Flags = { Flag: 2n }]: their
    flags have the same type, [{ Flag: bigint }], so an instance of one is a
    well-typed [Bit<T>] for the other. *)
Definition LowFlag : Class :=
  {| Flags := [("Flag"%string, 1)]; DefaultBit := 0 |}.

Definition HighFlag : Class :=
  {| Flags := [("Flag"%string, 2)]; DefaultBit := 0 |}.

(** [const hi = new HighFlag('Flag'); const lo = new LowFlag(hi)] *)
Definition foreign_program : list Call :=
  [CNew HighFlag (BString "Flag"); CNew LowFlag (BInstance 0%nat)].

Definition foreign_store : heap :=
  [fresh HighFlag 2; fresh LowFlag 2].

(** ** Further vocabulary *)

(** [a | b] on results that may be missing. *)
Definition lor_opt (a b : option Z) : option Z :=
  match a, b with
  | Some x, Some y => Some (Z.lor x y)
  | _, _ => None
  end.

(** An accepted input in which no instance occurs: [bits] is built from
    [undefined], booleans, integers, strings, values of no tested type and
    arrays of them. *)
Fixpoint instance_free (bits : Bit) : bool :=
  match bits with
  | BInstance _ | BNonInteger => false
  | BArray bs => forallb instance_free bs
  | _ => true
  end.

(** The value of the instance behind a reference: the getter [bitfield]. *)
Definition value_at (h : heap) (l : loc) : option Z := bitfield <$> h !! l.

(** The mutator that a derivation applies to a copy of the receiver:
    [with] and [union] are [add], [without] is [remove], [missing] and
    [complement] are [invert]. *)
Definition mutation_of (d : Derivation) : option Mutation :=
  match d with
  | With b | Union b => Some (Add b)
  | Without b => Some (Remove b)
  | Missing | Complement => Some Invert
  | _ => None
  end.

(** ** Bitwise facts *)

(** Compare two integers bit by bit. *)
Ltac bitwise n Hn :=
  apply Z.bits_inj'; intros n Hn;
  repeat first
    [ rewrite Z.land_spec | rewrite Z.lor_spec | rewrite Z.lxor_spec
    | rewrite Z.lnot_spec by exact Hn | rewrite Z.bits_0 ].

Lemma within_spec (mask value : Z) :
  within mask value ↔
  ∀ n, 0 ≤ n → Z.testbit value n = true → Z.testbit mask n = true.
Proof.
  unfold within. split.
  - intros H n Hn Hv.
    apply (f_equal (λ z, Z.testbit z n)) in H.
    rewrite Z.land_spec, Z.lnot_spec, Z.bits_0, Hv in H by exact Hn.
    destruct (Z.testbit mask n); [reflexivity | discriminate].
  - intros H. bitwise n Hn.
    destruct (Z.testbit value n) eqn:Hv; [| reflexivity].
    rewrite (H n Hn Hv). reflexivity.
Qed.

Lemma within_land_mask (mask value : Z) : within mask (Z.land value mask).
Proof.
  apply within_spec. intros n Hn. rewrite Z.land_spec.
  intros [_ H]%andb_prop. exact H.
Qed.

Lemma within_land_id (mask value : Z) :
  within mask value → Z.land value mask = value.
Proof.
  intros H. bitwise n Hn.
  destruct (Z.testbit value n) eqn:Hv; [| reflexivity].
  rewrite (proj1 (within_spec _ _) H n Hn Hv). reflexivity.
Qed.

Lemma within_zero (mask : Z) : within mask 0.
Proof. unfold within. apply Z.land_0_l. Qed.

Lemma within_lor (mask a b : Z) :
  within mask a → within mask b → within mask (Z.lor a b).
Proof.
  rewrite !within_spec. intros Ha Hb n Hn. rewrite Z.lor_spec.
  intros [H | H]%orb_prop; auto.
Qed.

Lemma within_fold_lor (values : list Z) (a v : Z) :
  v = a ∨ v ∈ values → within (fold_left (λ a b, Z.lor a b) values a) v.
Proof.
  revert a v.
  induction values as [| x values IH]; intros a v [Hv | Hv]; simpl.
  - subst v. apply within_spec. auto.
  - inversion Hv.
  - subst v. apply within_spec. intros n Hn Ha.
    assert (Hstep : within (fold_left (λ a b, Z.lor a b) values (Z.lor a x))
                      (Z.lor a x)) by (apply IH; left; reflexivity).
    apply (proj1 (within_spec _ _) Hstep n Hn).
    rewrite Z.lor_spec, Ha. reflexivity.
  - apply elem_of_cons in Hv as [-> | Hv].
    + apply within_spec. intros n Hn Hx.
      assert (Hstep : within (fold_left (λ a b, Z.lor a b) values (Z.lor a x))
                        (Z.lor a x)) by (apply IH; left; reflexivity).
      apply (proj1 (within_spec _ _) Hstep n Hn).
      rewrite Z.lor_spec, Hx. apply orb_true_r.
    + apply IH. right. exact Hv.
Qed.

Lemma get_elem_of (ob : FlagsObject) (key : string) (v : Z) :
  get ob key = Some v → (key, v) ∈ ob.
Proof.
  induction ob as [| [k x] ob IH]; simpl; [discriminate |].
  destruct (decide (k = key)) as [-> | Hne].
  - intros [= ->]. left.
  - intros H. right. auto.
Qed.

Lemma get_is_Some (ob : FlagsObject) (key : string) :
  key ∈ Reflect_ownKeys ob ↔ is_Some (get ob key).
Proof.
  unfold Reflect_ownKeys. induction ob as [| [k x] ob IH]; simpl.
  - split; [inversion 1 | intros [? [=]]].
  - destruct (decide (k = key)) as [-> | Hne].
    + split; [eauto | left].
    + rewrite elem_of_cons, IH. simpl.
      split; [intros [Heq | H]; [congruence | exact H] |].
      intros H. right. exact H.
Qed.

(** A declared value lies within the mask. *)
Lemma get_within (c : Class) (key : string) (v : Z) :
  get (Flags c) key = Some v → within (getMask c) v.
Proof.
  intros H%get_elem_of. unfold getMask, Object_values.
  apply within_fold_lor. right.
  apply list_elem_of_fmap. exists (key, v). auto.
Qed.

(** ** [resolve] and the store *)

Lemma resolve_array (c : Class) (h : heap) (bs : list Bit) :
  resolve c h (BArray bs) = fold_left (or_step c h) bs (Some 0).
Proof. reflexivity. Qed.

Lemma fold_or_step_None (c : Class) (h : heap) (bs : list Bit) :
  fold_left (or_step c h) bs None = None.
Proof. induction bs; simpl; auto. Qed.

Lemma resolve_total (c : Class) (h : heap) (bits : Bit) :
  bits_wf h bits = true → is_Some (resolve c h bits).
Proof.
  induction bits as [| | | | | l | bs IH | |] using Bit_nested_ind;
    simpl; intros Hwf; eauto.
  - destruct (safeIn (Flags c) s); eauto.
  - apply bool_decide_eq_true in Hwf.
    destruct (lookup_lt_is_Some_2 h l Hwf) as [o ->]. simpl. eauto.
  - change (is_Some (fold_left (or_step c h) bs (Some 0))).
    generalize 0. induction bs as [| b bs IHbs]; intros a; [simpl; eauto |].
    simpl in Hwf. apply andb_prop in Hwf as [Hb Hbs].
    inversion IH as [| ? ? IHb IHrest]; subst.
    destruct (IHb Hb) as [r Hr]. cbn [fold_left]. unfold or_step at 2.
    rewrite Hr. apply IHbs; assumption.
  - discriminate.
Qed.

(** Allocation does not change what well-formed bits resolve to. *)
Lemma resolve_app (c : Class) (h h' : heap) (bits : Bit) :
  bits_wf h bits = true → resolve c (h ++ h') bits = resolve c h bits.
Proof.
  induction bits as [| | | | | l | bs IH | |] using Bit_nested_ind;
    simpl; intros Hwf; auto.
  - apply bool_decide_eq_true in Hwf. rewrite lookup_app_l by exact Hwf.
    reflexivity.
  - change (fold_left (or_step c (h ++ h')) bs (Some 0)
            = fold_left (or_step c h) bs (Some 0)).
    generalize (Some 0).
    induction bs as [| b bs IHbs]; intros a; [reflexivity |].
    simpl in Hwf. apply andb_prop in Hwf as [Hb Hbs].
    inversion IH as [| ? ? IHb IHrest]; subst.
    cbn [fold_left]. unfold or_step at 2 4. rewrite (IHb Hb).
    apply IHbs; assumption.
Qed.

Lemma bits_wf_app (h h' : heap) (bits : Bit) :
  bits_wf h bits = true → bits_wf (h ++ h') bits = true.
Proof.
  induction bits as [| | | | | l | bs IH | |] using Bit_nested_ind;
    simpl; intros Hwf; auto.
  - apply bool_decide_eq_true in Hwf. apply bool_decide_eq_true.
    rewrite length_app. lia.
  - induction bs as [| b bs IHbs]; simpl in *; auto.
    apply andb_prop in Hwf as [Hb Hbs].
    inversion IH as [| ? ? IHb IHrest]; subst.
    rewrite (IHb Hb). simpl. apply IHbs; assumption.
Qed.

(** Bits whose instances are within the mask resolve within the mask. *)
Lemma resolve_within (c : Class) (h : heap) (bits : Bit) (v : Z) :
  instances_within (getMask c) h bits →
  resolve c h bits = Some v → within (getMask c) v.
Proof.
  revert v.
  induction bits as [| | | | | l | bs IH | |] using Bit_nested_ind;
    simpl; intros v Hin Hv.
  - injection Hv as <-. apply within_zero.
  - injection Hv as <-. apply within_land_mask.
  - injection Hv as <-. apply within_land_mask.
  - injection Hv as <-. apply within_land_mask.
  - unfold safeIn in Hv. destruct (get (Flags c) s) as [x |] eqn:Hget.
    + injection Hv as <-. simpl. eapply get_within, Hget.
    + injection Hv as <-. apply within_zero.
  - destruct (h !! l) as [o |]; [| contradiction].
    injection Hv as <-. exact Hin.
  - change (fold_left (or_step c h) bs (Some 0) = Some v) in Hv.
    assert (Hacc : ∀ a, within (getMask c) a →
              fold_left (or_step c h) bs (Some a) = Some v →
              within (getMask c) v).
    { clear Hv. induction bs as [| b bs IHbs]; intros a Ha Hv;
        cbn [fold_left] in Hv.
      - injection Hv as <-. exact Ha.
      - simpl in Hin. destruct Hin as [Hb Hbs].
        inversion IH as [| ? ? IHb IHrest]; subst.
        unfold or_step at 2 in Hv.
        destruct (resolve c h b) as [r |] eqn:Hr.
        + apply (IHbs IHrest Hbs (Z.lor a r)); [| exact Hv].
          apply within_lor; [exact Ha | apply (IHb r Hb eq_refl)].
        + rewrite fold_or_step_None in Hv. discriminate. }
    apply (Hacc 0 (within_zero _) Hv).
  - injection Hv as <-. apply within_zero.
  - discriminate.
Qed.

(** ** What each method does to the store *)

Lemma insert_last (h : heap) (x y : Instance) :
  <[length h := y]> (h ++ [x]) = h ++ [y].
Proof. induction h as [| o h IH]; simpl; [reflexivity | by rewrite IH]. Qed.

Lemma lookup_last (h : heap) (x : Instance) : (h ++ [x]) !! length h = Some x.
Proof. induction h as [| o h IH]; simpl; [reflexivity | exact IH]. Qed.

Lemma new_eq (c : Class) (bits : Bit) (h : heap) :
  new c bits h =
  match resolve c h (match bits with
                     | BUndefined => BBigInt (DefaultBit c)
                     | _ => bits
                     end) with
  | Some v => Some (length h, h ++ [fresh c v])
  | None => None
  end.
Proof.
  unfold new, bind, resolveM, alloc.
  destruct (resolve c h _); reflexivity.
Qed.

Lemma new_bigint (c : Class) (n : Z) (h : heap) :
  new c (BBigInt n) h
  = Some (length h, h ++ [fresh c (Z.land n (getMask c))]).
Proof. reflexivity. Qed.

Lemma freeze_eq (this : loc) (h : heap) (o : Instance) :
  h !! this = Some o →
  freeze this h = Some (this, <[this := set_frozen true o]> h).
Proof. intros Ho. unfold freeze, bind, deref. rewrite Ho. reflexivity. Qed.

Lemma mutate_frozen (mu : Mutation) (this : loc) (h : heap) (o : Instance) :
  h !! this = Some o → frozen o = true → mutate mu this h = Some (this, h).
Proof.
  intros Ho Hf.
  destruct mu; simpl; unfold add, remove, invert, bind, deref;
    rewrite Ho, Hf; reflexivity.
Qed.

Lemma mutate_unfrozen (mu : Mutation) (this : loc) (h : heap) (o : Instance)
    (r : Z) :
  h !! this = Some o → frozen o = false →
  resolve (con o) h (mutation_bits mu) = Some r →
  let v := mutated_value mu (bitfield o) r (getMask (con o)) in
  mutate mu this h
  = Some (this,
          match mu with
          | Invert => <[this := set_bitfield v o]> (h ++ [fresh (con o) v])
          | _ => <[this := set_bitfield v o]> h
          end).
Proof.
  intros Ho Hf Hr.
  destruct mu; simpl in *; unfold add, remove, invert, bind, deref, resolveM;
    rewrite Ho, Hf.
  - rewrite Hr. reflexivity.
  - rewrite Hr. reflexivity.
  - unfold missing, bind, deref. rewrite Ho, new_bigint, lookup_last.
    rewrite lookup_app_l by (eapply lookup_lt_Some, Ho). rewrite Ho.
    reflexivity.
Qed.

Lemma derive_eq (d : Derivation) (this : loc) (h : heap) (o : Instance)
    (r : Z) :
  h !! this = Some o →
  bits_wf h (derivation_bits d) = true →
  resolve (con o) h (derivation_bits d) = Some r →
  derive d this h
  = Some (length h,
          h ++ [fresh (con o)
                  (derived_value d (bitfield o) r (getMask (con o)))]).
Proof.
  intros Ho Hwf Hr.
  destruct d; simpl in *;
    unfold union, complement, with_, without, missing, intersection,
      difference, symmetricDifference, bind, deref;
    rewrite Ho, ?new_bigint;
    try (unfold add, remove, bind, deref, resolveM, assign;
         rewrite lookup_last; simpl;
         rewrite (resolve_app _ _ _ _ Hwf), Hr, insert_last; reflexivity);
    try reflexivity;
    unfold resolveM; rewrite Hr, new_bigint; reflexivity.
Qed.

Lemma has_eq (this : loc) (bit : Bit) (h : heap) (o : Instance) (r : Z) :
  h !! this = Some o → resolve (con o) h bit = Some r →
  has this bit h = Some (negb (Z.land (bitfield o) r =? 0), h).
Proof.
  intros Ho Hr. unfold has, bind, deref, resolveM. rewrite Ho, Hr.
  reflexivity.
Qed.

Lemma any_eq (this : loc) (bit : Bit) (h : heap) (o : Instance) (r : Z) :
  h !! this = Some o → resolve (con o) h bit = Some r →
  let v := Z.land (Z.land (bitfield o) r) (getMask (con o)) in
  any this bit h = Some (negb (v =? 0), h ++ [fresh (con o) v]).
Proof.
  intros Ho Hr. unfold any, intersection, bind, deref, resolveM.
  rewrite Ho, Hr, new_bigint, lookup_last. reflexivity.
Qed.

(** A derivation, whatever its argument, only appends one unfrozen, masked
    instance of the receiver's class. *)
Lemma derive_shape (d : Derivation) (this : loc) (h h' : heap) (l : loc) :
  derive d this h = Some (l, h') →
  ∃ o v, h !! this = Some o ∧ l = length h ∧
         h' = h ++ [fresh (con o) (Z.land v (getMask (con o)))].
Proof.
  destruct (h !! this) as [o |] eqn:Ho.
  2: { destruct d; simpl;
         unfold union, complement, with_, without, missing, intersection,
           difference, symmetricDifference, bind, deref;
         rewrite Ho; discriminate. }
  destruct d; simpl;
    unfold union, complement, with_, without, missing, intersection,
      difference, symmetricDifference, bind, deref;
    rewrite Ho, ?new_bigint;
    try (unfold add, remove, bind, deref, resolveM, assign;
         rewrite lookup_last; simpl;
         destruct (resolve (con o) _ _) as [r |]; [| discriminate];
         rewrite insert_last; intros [= <- <-];
         eexists o, _; repeat split; reflexivity);
    try (intros [= <- <-]; eexists o, _; repeat split; reflexivity);
    unfold resolveM; destruct (resolve (con o) _ _) as [r |];
    [| discriminate | | discriminate | | discriminate];
    rewrite new_bigint; intros [= <- <-];
    eexists o, _; repeat split; reflexivity.
Qed.

Lemma derive_total (d : Derivation) (this : loc) (h : heap) :
  is_Some (h !! this) → bits_wf h (derivation_bits d) = true →
  is_Some (derive d this h).
Proof.
  intros [o Ho] Hwf.
  destruct (resolve_total (con o) h _ Hwf) as [r Hr].
  rewrite (derive_eq d this h o r Ho Hwf Hr). eauto.
Qed.

(** ** Calls as elementary changes *)

Lemma mutate_changes (mu : Mutation) (this : loc) (h h' : heap) (l : loc) :
  mutate mu this h = Some (l, h') → l = this ∧ rtc change h h'.
Proof.
  destruct (h !! this) as [o |] eqn:Ho.
  2: { destruct mu; simpl; unfold add, remove, invert, bind, deref;
         rewrite Ho; discriminate. }
  destruct (frozen o) eqn:Hf.
  { rewrite (mutate_frozen mu this h o Ho Hf). intros [= <- <-].
    split; [reflexivity | apply rtc_refl]. }
  destruct (resolve (con o) h (mutation_bits mu)) as [r |] eqn:Hr.
  - rewrite (mutate_unfrozen mu this h o r Ho Hf Hr). intros [= <- <-].
    split; [reflexivity |].
    destruct mu; simpl.
    + apply rtc_once. apply change_assign; assumption.
    + apply rtc_once. apply change_assign; assumption.
    + eapply rtc_l; [apply change_alloc |].
      apply rtc_once. apply change_assign; [| exact Hf].
      rewrite lookup_app_l by (eapply lookup_lt_Some, Ho). exact Ho.
  - destruct mu; simpl in *;
      unfold add, remove, invert, bind, deref, resolveM; rewrite Ho, Hf, ?Hr;
      discriminate.
Qed.

Lemma any_changes (this : loc) (bit : Bit) (h h' : heap) (b : bool) :
  any this bit h = Some (b, h') → rtc change h h'.
Proof.
  unfold any, bind.
  destruct (intersection this bit h) as [[l h1] |] eqn:Hi; [| discriminate].
  apply (derive_shape (Intersection bit)) in Hi as (o & v & Ho & -> & ->).
  unfold deref. rewrite lookup_last. intros [= <- <-].
  apply rtc_once, change_alloc.
Qed.

(** What a call does to the store: the constructor appends what its
    argument resolves to; every other call makes elementary changes. *)
Lemma exec_cases (call : Call) (h h' : heap) (u : unit) :
  exec call h = Some (u, h') →
  match call with
  | CNew c bits =>
      ∃ v, resolve c h (match bits with
                        | BUndefined => BBigInt (DefaultBit c)
                        | _ => bits
                        end) = Some v
           ∧ h' = h ++ [fresh c v]
  | _ => rtc change h h'
  end.
Proof.
  destruct u.
  destruct call as [c bits | this mu | this | this d | this bit];
    simpl; unfold bind.
  - rewrite new_eq. destruct (resolve c h _) as [v |]; [| discriminate].
    intros [= <-]. eauto.
  - destruct (mutate mu this h) as [[l h1] |] eqn:Hm; [| discriminate].
    intros [= <-]. apply mutate_changes in Hm as [_ Hm]. exact Hm.
  - destruct (h !! this) as [o |] eqn:Ho.
    + rewrite (freeze_eq this h o Ho). intros [= <-].
      apply rtc_once. eapply change_freeze, Ho.
    + unfold freeze, bind, deref. rewrite Ho. discriminate.
  - destruct (derive d this h) as [[l h1] |] eqn:Hd; [| discriminate].
    intros [= <-]. apply derive_shape in Hd as (o & v & Ho & -> & ->).
    apply rtc_once, change_alloc.
  - destruct (any this bit h) as [[b h1] |] eqn:Ha; [| discriminate].
    intros [= <-]. eapply any_changes, Ha.
Qed.

(** ** Built stores are consistent *)

Lemma lookup_snoc_inv (h : heap) (x o : Instance) (l : loc) :
  (h ++ [x]) !! l = Some o → h !! l = Some o ∨ o = x.
Proof.
  intros H. destruct (decide (l < length h)%nat) as [Hlt | Hge].
  - left. rewrite lookup_app_l in H by exact Hlt. exact H.
  - right. rewrite lookup_app_r in H by lia.
    destruct (l - length h)%nat; simpl in H; [congruence | discriminate].
Qed.

Lemma lookup_insert_inv (h : heap) (x o : Instance) (i l : loc) :
  <[i := x]> h !! l = Some o → h !! l = Some o ∨ (l = i ∧ o = x).
Proof.
  intros H. destruct (decide (i = l)) as [-> | Hne].
  - right. split; [reflexivity |].
    assert (Hlt : (l < length h)%nat)
      by (rewrite <- (length_insert h l x); eapply lookup_lt_Some, H).
    rewrite list_lookup_insert_eq in H by exact Hlt.
    congruence.
  - left. rewrite list_lookup_insert_ne in H by exact Hne. exact H.
Qed.

Lemma change_consistent (h h' : heap) :
  change h h' → consistent h → consistent h'.
Proof.
  intros Hc Hh l o' Hl. destruct Hc as [h c v | h this o v Ho Hf | h this o Ho].
  - apply lookup_snoc_inv in Hl as [Hl | ->]; [eapply Hh, Hl | reflexivity].
  - apply lookup_insert_inv in Hl as [Hl | [-> ->]]; [eapply Hh, Hl |].
    simpl. eapply Hh, Ho.
  - apply lookup_insert_inv in Hl as [Hl | [-> ->]]; [eapply Hh, Hl |].
    simpl. eapply Hh, Ho.
Qed.

Lemma exec_consistent (call : Call) (h h' : heap) (u : unit) :
  exec call h = Some (u, h') → consistent h → consistent h'.
Proof.
  intros He Hh. apply exec_cases in He.
  destruct call as [c bits | | | |].
  1: { destruct He as (v & _ & ->). intros l o Hl.
       apply lookup_snoc_inv in Hl as [Hl | ->];
         [eapply Hh, Hl | reflexivity]. }
  all: induction He; eauto using change_consistent.
Qed.

Lemma run_consistent (calls : list Call) (h h' : heap) :
  run calls h = Some h' → consistent h → consistent h'.
Proof.
  revert h. induction calls as [| call calls IH]; simpl; intros h Hr Hh.
  - injection Hr as <-. exact Hh.
  - destruct (exec call h) as [[u h1] |] eqn:He; [| discriminate].
    eapply IH; [exact Hr |]. eapply exec_consistent; eassumption.
Qed.

Lemma built_consistent (h : heap) : built h → consistent h.
Proof.
  intros [calls Hr]. eapply run_consistent; [exact Hr |].
  intros l o Hl. destruct l; discriminate.
Qed.

(** ** The ordered flags *)

Lemma sort_insert_perm {A} (cmp : A → A → Z) (x : A) (l : list A) :
  sort_insert cmp x l ≡ₚ x :: l.
Proof.
  induction l as [| y l IH]; simpl; [reflexivity |].
  destruct (cmp x y <? 0); [reflexivity |].
  rewrite IH. apply Permutation_swap.
Qed.

Lemma Array_sort_perm {A} (cmp : A → A → Z) (l : list A) :
  Array_sort cmp l ≡ₚ l.
Proof.
  unfold Array_sort.
  assert (H : ∀ acc, fold_left (λ acc x, sort_insert cmp x acc) l acc
                     ≡ₚ acc ++ l).
  { induction l as [| x l IH]; intros acc; simpl.
    - rewrite app_nil_r. reflexivity.
    - rewrite IH, sort_insert_perm. apply Permutation_middle. }
  apply (H []).
Qed.

Lemma sort_insert_ascending (x : string * Z) (l : list (string * Z)) :
  ascending l → ascending (sort_insert compareFlags x l).
Proof.
  unfold ascending.
  induction l as [| y l IH]; simpl; intros Hl.
  - repeat constructor.
  - apply StronglySorted_inv in Hl as [Hl Hy].
    unfold compareFlags at 1.
    destruct (x.2 <? y.2) eqn:Hlt; simpl.
    + apply Z.ltb_lt in Hlt. constructor.
      * constructor; assumption.
      * constructor; [lia |].
        eapply Forall_impl; [exact Hy |]. simpl. intros z Hz. lia.
    + apply Z.ltb_ge in Hlt. constructor; [apply IH, Hl |].
      rewrite sort_insert_perm. constructor; assumption.
Qed.

Lemma Array_sort_ascending (l : list (string * Z)) :
  ascending (Array_sort compareFlags l).
Proof.
  unfold Array_sort.
  assert (H : ∀ acc, ascending acc →
                ascending (fold_left
                             (λ acc x, sort_insert compareFlags x acc) l acc)).
  { induction l as [| x l IH]; intros acc Hacc; simpl; [exact Hacc |].
    apply IH, sort_insert_ascending, Hacc. }
  apply H. constructor.
Qed.

(** The ordered flags pair every declared name with its declared value. *)
Lemma orderedFlags_elem (c : Class) (k : string) (v : Z) :
  (k, v) ∈ orderedFlags c ↔ get (Flags c) k = Some v.
Proof.
  unfold orderedFlags. rewrite Array_sort_perm. unfold ownEntries.
  rewrite list_elem_of_fmap. split.
  - intros (key & [= -> ->] & Hkey).
    apply get_is_Some in Hkey as [x Hx]. rewrite Hx. reflexivity.
  - intros Hget. exists k. rewrite Hget. split; [reflexivity |].
    apply get_is_Some. eauto.
Qed.

Lemma yield_present_elem (value : Z) (flags : list (string * Z)) (k : string) :
  k ∈ yield_present value flags ↔
  ∃ bit, (k, bit) ∈ flags ∧ Z.land value bit ≠ 0.
Proof.
  induction flags as [| [flag bit] flags IH]; simpl.
  - split; [inversion 1 | intros (? & H & _); inversion H].
  - destruct (Z.land value bit =? 0) eqn:Hz; simpl.
    + apply Z.eqb_eq in Hz. rewrite IH. split.
      * intros (b & Hb & Hne). exists b. split; [right; exact Hb | exact Hne].
      * intros (b & Hb & Hne). exists b. split; [| exact Hne].
        apply elem_of_cons in Hb as [[= -> ->] | Hb];
          [contradiction | exact Hb].
    + apply Z.eqb_neq in Hz. rewrite elem_of_cons, IH. split.
      * intros [-> | (b & Hb & Hne)].
        -- exists bit. split; [left | exact Hz].
        -- exists b. split; [right; exact Hb | exact Hne].
      * intros (b & Hb & Hne).
        apply elem_of_cons in Hb as [[= -> ->] | Hb]; [left; reflexivity |].
        right. eauto.
Qed.

(** The values of the yielded names ascend when the flags do. *)
Lemma yield_present_ascending (f : string → Z) (value : Z)
    (flags : list (string * Z)) :
  (∀ k b, (k, b) ∈ flags → b = f k) → ascending flags →
  StronglySorted Z.le (f <$> yield_present value flags).
Proof.
  unfold ascending.
  induction flags as [| [flag bit] flags IH]; simpl; intros Hf Hs.
  - constructor.
  - apply StronglySorted_inv in Hs as [Hs Hhd].
    assert (Hf' : ∀ k b, (k, b) ∈ flags → b = f k)
      by (intros k b Hkb; apply Hf; right; exact Hkb).
    destruct (negb (Z.land value bit =? 0)); [| apply IH; assumption].
    rewrite fmap_cons. constructor; [apply IH; assumption |].
    apply Forall_forall. intros y (k & -> & Hk)%list_elem_of_fmap.
    apply yield_present_elem in Hk as (b & Hb & _).
    rewrite Forall_forall in Hhd. specialize (Hhd _ Hb). simpl in Hhd.
    rewrite <- (Hf flag bit) by left. rewrite <- (Hf' k b Hb). exact Hhd.
Qed.

(** The loop of [findIndex] returns the first index whose name satisfies the
    predicate, counted from [i], or [-1]. *)
Lemma findIndex_from_spec (predicate : string → bool) (i : Z)
    (flags : list (string * Z)) :
  0 ≤ i →
  let r := findIndex_from predicate i flags in
  (r = -1 ∧ ∀ k v, (k, v) ∈ flags → predicate k = false)
  ∨ (∃ n k v, r = i + Z.of_nat n ∧ flags !! n = Some (k, v) ∧
              predicate k = true ∧
              ∀ j k' v', (j < n)%nat → flags !! j = Some (k', v') →
                         predicate k' = false).
Proof.
  revert i. induction flags as [| [flag bit] flags IH]; intros i Hi; simpl.
  - left. split; [reflexivity | intros k v H; inversion H].
  - destruct (predicate flag) eqn:Hp.
    + right. exists 0%nat, flag, bit. repeat split; [lia | exact Hp |].
      intros j k' v' Hj. lia.
    + destruct (IH (i + 1) ltac:(lia))
        as [[Hr Hall] | (n & k & v & Hr & Hn & Hk & Hbefore)].
      * left. split; [exact Hr |]. intros k v Hkv.
        apply elem_of_cons in Hkv as [[= -> ->] | Hkv]; eauto.
      * right. exists (S n), k, v. repeat split; [lia | exact Hn | exact Hk |].
        intros [| j] k' v' Hj Hl; simpl in Hl.
        -- injection Hl as <- <-. exact Hp.
        -- eapply Hbefore; [| exact Hl]. lia.
Qed.

(** ** Reaching a store by running a program *)

Lemma reachable_run (calls : list Call) (h h' : heap) :
  reachable h → admissible_run calls h → run calls h = Some h' →
  reachable h'.
Proof.
  revert h. induction calls as [| call calls IH]; simpl; intros h Hh Hadm Hrun.
  - injection Hrun as <-. exact Hh.
  - destruct Hadm as [Hcall Hrest].
    destruct (exec call h) as [[u h1] |] eqn:Hexec; [| discriminate].
    apply (IH h1); [| exact Hrest | exact Hrun].
    eapply reachable_call; eassumption.
Qed.

(** ** C2: the shapes of [resolve] *)

(** C2 as stated fails: "any other input yields 0" does not hold of a
    number that is not an integer.  [resolve(1.5)] does not return, because
    [BigInt(1.5)] throws a [RangeError], and neither does [resolve] of an
    array that contains such a number. *)
Lemma resolve_throws_on_non_integer :
  resolve Permissions [] BNonInteger = None
  ∧ resolve Permissions [] (BArray [BString "Read"; BNonInteger]) = None
  ∧ resolve Permissions [] BOther = Some 0.
Proof. repeat split; reflexivity. Qed.

(** C2, amended.  [resolve] maps each input shape as follows: [undefined] to
    0; a boolean to 1 or 0, which is then masked like any integer; an array
    to the left-to-right OR of what its elements resolve to (0 when empty);
    an instance to its current value, not masked again; an integer (number
    or bigint) to the integer [& mask]; a declared flag name to its declared
    value, not masked; an unknown name, and a value of a type that no branch
    tests for, to 0; on a number that is not an integer it throws instead of
    returning. *)
Theorem resolve_by_shape (c : Class) (h : heap) :
  resolve c h BUndefined = Some 0
  ∧ (∀ b : bool,
       resolve c h (BBoolean b) = resolve c h (BBigInt (if b then 1 else 0))
       ∧ resolve c h (BBoolean b)
         = Some (Z.land (if b then 1 else 0) (getMask c)))
  ∧ resolve c h (BArray []) = Some 0
  ∧ (∀ bs rs,
       Forall2 (λ b r, resolve c h b = Some r) bs rs →
       resolve c h (BArray bs) = Some (fold_left Z.lor rs 0))
  ∧ (∀ l o, h !! l = Some o → resolve c h (BInstance l) = Some (bitfield o))
  ∧ (∀ n, resolve c h (BNumber n) = Some (Z.land n (getMask c)))
  ∧ (∀ n, resolve c h (BBigInt n) = Some (Z.land n (getMask c)))
  ∧ (∀ s v, get (Flags c) s = Some v → resolve c h (BString s) = Some v)
  ∧ (∀ s, get (Flags c) s = None → resolve c h (BString s) = Some 0)
  ∧ resolve c h BOther = Some 0
  ∧ resolve c h BNonInteger = None.
Proof.
  split; [reflexivity |].
  split; [intros b; split; destruct b; reflexivity |].
  split; [reflexivity |].
  split.
  { intros bs rs Hall. rewrite resolve_array.
    change (Some (fold_left Z.lor rs 0))
      with ((λ a, Some (fold_left Z.lor rs a)) 0).
    generalize 0. induction Hall as [| b r bs rs Hb Hall IH]; intros a.
    - reflexivity.
    - cbn [fold_left]. unfold or_step at 2. rewrite Hb. apply IH. }
  split; [intros l o Ho; simpl; rewrite Ho; reflexivity |].
  split; [reflexivity |].
  split; [reflexivity |].
  split; [intros s v Hget; simpl; unfold safeIn; rewrite Hget; reflexivity |].
  split; [intros s Hget; simpl; unfold safeIn; rewrite Hget; reflexivity |].
  split; reflexivity.
Qed.

Lemma resolve_by_shape_witness :
  resolve Permissions [fresh ReadWrite 2]
    (BArray [BString "Write"; BInstance 0%nat; BString "Unknown"; BNumber 20])
  = Some 6.
Proof.
  destruct (resolve_by_shape Permissions [fresh ReadWrite 2])
    as (_ & _ & _ & Harray & Hinstance & Hnumber & _ & Hname & Hunknown & _
        & _).
  apply (Harray _ [2; 2; 0; 4]).
  constructor; [apply Hname; reflexivity |].
  constructor; [apply (Hinstance 0%nat (fresh ReadWrite 2)); reflexivity |].
  constructor; [apply Hunknown; reflexivity |].
  constructor; [apply (Hnumber 20) | constructor].
Defined.

(** ** The mask invariant, and C1 *)

Lemma change_invariant (h h' : heap) :
  change h h' → heap_invariant h → heap_invariant h'.
Proof.
  intros Hc Hh l o' Hl.
  destruct Hc as [h c v | h this o v Ho Hf | h this o Ho].
  - apply lookup_snoc_inv in Hl as [Hl | ->]; [eapply Hh, Hl |].
    apply within_land_mask.
  - apply lookup_insert_inv in Hl as [Hl | [-> ->]]; [eapply Hh, Hl |].
    apply within_land_mask.
  - apply lookup_insert_inv in Hl as [Hl | [-> ->]]; [eapply Hh, Hl |].
    apply (Hh _ _ Ho).
Qed.

Lemma changes_invariant (h h' : heap) :
  rtc change h h' → heap_invariant h → heap_invariant h'.
Proof. induction 1; eauto using change_invariant. Qed.

(** Instances of the class itself are within its mask, so they are always
    admissible constructor arguments. *)
Lemma instances_of_within (c : Class) (h : heap) (bits : Bit) :
  heap_invariant h → instances_of c h bits →
  instances_within (getMask c) h bits.
Proof.
  intros Hh.
  induction bits as [| | | | | l | bs IH | |] using Bit_nested_ind;
    simpl; auto.
  - destruct (h !! l) as [o |] eqn:Ho; [| auto].
    intros <-. apply (Hh _ _ Ho).
  - induction bs as [| b bs IHbs]; simpl; [auto |].
    inversion IH as [| ? ? IHb IHrest]; subst.
    intros [Hb Hbs]. split; auto.
Qed.

(** In every store reached from the empty one by calls whose constructor
    arguments only contain instances with a value within the mask of the
    class being constructed, [value & ~mask == 0] holds for every
    instance. *)
Theorem mask_invariant (h : heap) : reachable h → heap_invariant h.
Proof.
  induction 1 as [| h call u h' Hreach IH Hadm Hexec].
  - intros l o Hl. destruct l; discriminate.
  - apply exec_cases in Hexec.
    destruct call as [c bits | | | |];
      try (eapply changes_invariant; eassumption).
    destruct Hexec as (v & Hv & ->). intros l o Hl.
    apply lookup_snoc_inv in Hl as [Hl | ->]; [eapply IH, Hl |].
    unfold invariant. simpl. eapply resolve_within; [| exact Hv].
    simpl in Hadm. destruct bits; simpl; auto.
Qed.

Lemma mask_invariant_witness :
  heap_invariant
    [set_frozen true (fresh Permissions 10); fresh Permissions 7;
     fresh Permissions 10; fresh Permissions 0]
  ∧ Z.land 10 (Z.lnot (getMask Permissions)) = 0.
Proof.
  assert (Hreach : reachable
            [set_frozen true (fresh Permissions 10); fresh Permissions 7;
             fresh Permissions 10; fresh Permissions 0]).
  { apply (reachable_run
             [CNew Permissions
                (BArray [BString "Write"; BBoolean true; BNumber 36]);
              CNew Permissions (BInstance 0%nat);
              CMutate 0%nat (Add (BInstance 1%nat));
              CMutate 0%nat (Remove (BNumber 2));
              CMutate 0%nat Invert;
              CFreeze 0%nat;
              CDerive 0%nat (Without (BInstance 0%nat))] []).
    - apply reachable_empty.
    - simpl. repeat split; reflexivity.
    - reflexivity. }
  split; [exact (mask_invariant _ Hreach) | reflexivity].
Defined.

Lemma change_invariant_at (l : loc) (h h' : heap) :
  change h h' → invariant_at l h → invariant_at l h'.
Proof.
  intros Hc Hh o' Hl.
  destruct Hc as [h c v | h this o v Ho Hf | h this o Ho].
  - apply lookup_snoc_inv in Hl as [Hl | ->]; [apply (Hh _ Hl) |].
    apply within_land_mask.
  - apply lookup_insert_inv in Hl as [Hl | [-> ->]]; [apply (Hh _ Hl) |].
    apply within_land_mask.
  - apply lookup_insert_inv in Hl as [Hl | [-> ->]]; [apply (Hh _ Hl) |].
    apply (Hh _ Ho).
Qed.

Lemma changes_invariant_at (l : loc) (h h' : heap) :
  rtc change h h' → invariant_at l h → invariant_at l h'.
Proof. induction 1; eauto using change_invariant_at. Qed.

(** Every call keeps the mask invariant of each instance separately: an
    instance that satisfied [value & ~mask == 0] before the call, or did not
    exist yet, satisfies it after the call, whatever the other instances
    hold.  This is so for every mutator, derivation, [freeze] and [any] with
    any argument, and for a constructor call whose argument only contains
    instances with a value within the mask of the class constructed. *)
Theorem invariant_survives_calls (call : Call) (h h' : heap) (u : unit)
    (l : loc) :
  exec call h = Some (u, h') → admissible h call →
  invariant_at l h → invariant_at l h'.
Proof.
  intros Hexec Hadm Hl. apply exec_cases in Hexec.
  destruct call as [c bits | | | |];
    try (eapply changes_invariant_at; eassumption).
  destruct Hexec as (v & Hv & ->). intros o Ho.
  apply lookup_snoc_inv in Ho as [Ho | ->]; [apply (Hl _ Ho) |].
  unfold invariant. simpl. eapply resolve_within; [| exact Hv].
  simpl in Hadm. destruct bits; simpl; auto.
Qed.

Lemma invariant_survives_calls_witness :
  invariant_at 2%nat (foreign_store ++ [fresh LowFlag 1])
  ∧ derive Missing 1%nat foreign_store
    = Some (2%nat, foreign_store ++ [fresh LowFlag 1]).
Proof.
  split; [| reflexivity].
  apply (invariant_survives_calls (CDerive 1%nat Missing) foreign_store _ tt
           2%nat).
  - reflexivity.
  - exact I.
  - intros o Ho. discriminate.
Defined.

(** C1.  The code breaks the claim at a constructor argument that is an
    instance of another definition: [new LowFlag(new HighFlag('Flag'))]
    holds 2 under the mask 1, so [value & ~mask] is 2 and not 0.  The
    constructor is the only path that stores what [resolve] returns for an
    instance without masking it: [resolve] masks the same value given as a
    bigint, and [add] with the same instance as argument stores 0. *)
Theorem foreign_instance_escapes_mask :
  run foreign_program [] = Some foreign_store
  ∧ foreign_store !! 1%nat = Some (fresh LowFlag 2)
  ∧ getMask LowFlag = 1
  ∧ Z.land (bitfield (fresh LowFlag 2)) (Z.lnot (getMask LowFlag)) = 2
  ∧ resolve LowFlag foreign_store (BInstance 0%nat) = Some 2
  ∧ resolve LowFlag foreign_store (BBigInt 2) = Some 0
  ∧ (x <- new LowFlag BUndefined ;; add x (BInstance 0%nat)) foreign_store
    = Some (2%nat, foreign_store ++ [fresh LowFlag 0]).
Proof. repeat split; reflexivity. Qed.

(** ** [any] and [has], and C3 *)

(** C3.  The code breaks the claim on the instance that
    [new LowFlag(new HighFlag('Flag'))] returns, with that [HighFlag]
    instance as argument: the overlap of the receiver's value with the
    argument lies outside the mask, [has] sees it and answers true, and
    [any], which goes through the constructor, answers false. *)
Theorem any_differs_from_has :
  run foreign_program [] = Some foreign_store
  ∧ has 1%nat (BInstance 0%nat) foreign_store = Some (true, foreign_store)
  ∧ any 1%nat (BInstance 0%nat) foreign_store
    = Some (false, foreign_store ++ [fresh LowFlag 0]).
Proof. repeat split; reflexivity. Qed.

(** On every instance whose value lies within its mask, and for every
    accepted argument, [any] returns the boolean that [has] returns: true
    iff [value & resolve(bits) != 0]. *)
Theorem any_agrees_with_has (this : loc) (bit : Bit) (h : heap)
    (o : Instance) :
  h !! this = Some o → bits_wf h bit = true → invariant o →
  ∃ r b h',
    resolve (con o) h bit = Some r
    ∧ has this bit h = Some (b, h)
    ∧ any this bit h = Some (b, h')
    ∧ b = negb (Z.land (bitfield o) r =? 0).
Proof.
  intros Ho Hwf Hinv.
  destruct (resolve_total (con o) h bit Hwf) as [r Hr].
  exists r, (negb (Z.land (bitfield o) r =? 0)), 
    (h ++ [fresh (con o)
             (Z.land (Z.land (bitfield o) r) (getMask (con o)))]).
  split; [exact Hr |].
  split; [apply has_eq; assumption |].
  split; [| reflexivity].
  rewrite (any_eq this bit h o r Ho Hr). cbv zeta.
  assert (Hmask : Z.land (Z.land (bitfield o) r) (getMask (con o))
                  = Z.land (bitfield o) r).
  { rewrite <- Z.land_assoc, (Z.land_comm r), Z.land_assoc.
    rewrite (within_land_id _ _ Hinv). reflexivity. }
  rewrite Hmask. reflexivity.
Qed.

Lemma any_agrees_with_has_witness :
  ∃ r b h',
    resolve Permissions [fresh Permissions 5]
      (BArray [BString "Write"; BString "Execute"]) = Some r
    ∧ has 0%nat (BArray [BString "Write"; BString "Execute"])
        [fresh Permissions 5] = Some (b, [fresh Permissions 5])
    ∧ any 0%nat (BArray [BString "Write"; BString "Execute"])
        [fresh Permissions 5] = Some (b, h')
    ∧ b = negb (Z.land 5 r =? 0).
Proof.
  apply (any_agrees_with_has 0%nat
           (BArray [BString "Write"; BString "Execute"])
           [fresh Permissions 5] (fresh Permissions 5));
    reflexivity.
Defined.

(** ** Double complement, and C8 *)

(** C8.  The code breaks the claim on the instance that
    [new LowFlag(new HighFlag('Flag'))] returns: its value is 2, its
    complement holds 1 and the complement of that holds 0, not 2. *)
Theorem complement_twice_loses_foreign_bits :
  run foreign_program [] = Some foreign_store
  ∧ value_at foreign_store 1%nat = Some 2
  ∧ complement 1%nat foreign_store
    = Some (2%nat, foreign_store ++ [fresh LowFlag 1])
  ∧ complement 2%nat (foreign_store ++ [fresh LowFlag 1])
    = Some (3%nat, foreign_store ++ [fresh LowFlag 1; fresh LowFlag 0])
  ∧ value_at (foreign_store ++ [fresh LowFlag 1; fresh LowFlag 0]) 3%nat
    = Some 0.
Proof. repeat split; reflexivity. Qed.

Lemma double_lnot_within (mask value : Z) :
  within mask value →
  Z.land (Z.land (Z.lnot (Z.land (Z.land (Z.lnot value) mask) mask)) mask)
    mask = value.
Proof.
  intros H. rewrite within_spec in H. bitwise n Hn.
  destruct (Z.testbit value n) eqn:Hv.
  - rewrite (H n Hn Hv). reflexivity.
  - destruct (Z.testbit mask n); reflexivity.
Qed.

(** On every instance [x] whose value lies within its mask,
    [complement(complement(x)).value == x.value]: both calls succeed, each
    returns a new instance, and the second one holds the value of [x]. *)
Theorem double_complement (x : loc) (h : heap) (o : Instance) :
  h !! x = Some o → invariant o →
  ∃ c1 h1 c2 h2 o2,
    complement x h = Some (c1, h1)
    ∧ complement c1 h1 = Some (c2, h2)
    ∧ h2 !! c2 = Some o2
    ∧ bitfield o2 = bitfield o.
Proof.
  intros Ho Hinv.
  pose (m := getMask (con o)).
  pose (v1 := Z.land (Z.land (Z.lnot (bitfield o)) m) m).
  pose (v2 := Z.land (Z.land (Z.lnot v1) m) m).
  exists (length h), (h ++ [fresh (con o) v1]),
    (length (h ++ [fresh (con o) v1])),
    ((h ++ [fresh (con o) v1]) ++ [fresh (con o) v2]), (fresh (con o) v2).
  split.
  { apply (derive_eq Complement x h o 0 Ho); reflexivity. }
  split.
  { apply (derive_eq Complement (length h) (h ++ [fresh (con o) v1])
             (fresh (con o) v1) 0); [apply lookup_last | reflexivity ..]. }
  split; [apply lookup_last |].
  apply double_lnot_within, Hinv.
Qed.

Lemma double_complement_witness :
  ∃ c1 h1 c2 h2 o2,
    complement 0%nat [fresh Permissions 5] = Some (c1, h1)
    ∧ complement c1 h1 = Some (c2, h2)
    ∧ h2 !! c2 = Some o2
    ∧ bitfield o2 = 5.
Proof.
  apply (double_complement 0%nat [fresh Permissions 5] (fresh Permissions 5));
    reflexivity.
Defined.

(** ** C4: freezing *)

(** An elementary change keeps a frozen instance frozen, with its value. *)
Lemma change_frozen (h h' : heap) (l : loc) (o : Instance) :
  change h h' → h !! l = Some o → frozen o = true →
  ∃ o', h' !! l = Some o' ∧ frozen o' = true ∧ bitfield o' = bitfield o.
Proof.
  intros Hc Hl Hfrozen.
  destruct Hc as [h c v | h this o0 v Ho Hf | h this o0 Ho].
  - exists o. rewrite lookup_app_l by (eapply lookup_lt_Some, Hl). auto.
  - destruct (decide (this = l)) as [-> | Hne]; [congruence |].
    exists o. rewrite list_lookup_insert_ne by exact Hne. auto.
  - destruct (decide (this = l)) as [-> | Hne].
    + exists (set_frozen true o0).
      rewrite list_lookup_insert_eq by (eapply lookup_lt_Some, Hl).
      assert (o0 = o) as -> by congruence. auto.
    + exists o. rewrite list_lookup_insert_ne by exact Hne. auto.
Qed.

Lemma changes_frozen (h h' : heap) :
  rtc change h h' →
  ∀ l o, h !! l = Some o → frozen o = true →
  ∃ o', h' !! l = Some o' ∧ frozen o' = true ∧ bitfield o' = bitfield o.
Proof.
  induction 1 as [h | h h1 h2 Hc Hrest IH]; intros l o Hl Hf; [eauto |].
  destruct (change_frozen h h1 l o Hc Hl Hf) as (o1 & Hl1 & Hf1 & Hv1).
  destruct (IH l o1 Hl1 Hf1) as (o2 & Hl2 & Hf2 & Hv2).
  exists o2. repeat split; [exact Hl2 | exact Hf2 | congruence].
Qed.

(** C4. [frozen] is false at construction; no call ever turns it back to
    false (nor changes the value of a frozen instance); [freeze] returns the
    receiver with [frozen] set and its value kept, a second [freeze] changes
    nothing, and after [freeze] the mutators [add], [remove] and [invert]
    return the receiver and leave the whole store, hence its value and its
    frozen flag, as it is. *)
Theorem frozen_is_final :
  (∀ c bits h, bits_wf h bits = true →
     ∃ o, new c bits h = Some (length h, h ++ [o]) ∧ frozen o = false)
  ∧ (∀ call h u h' l o,
       exec call h = Some (u, h') → h !! l = Some o → frozen o = true →
       ∃ o', h' !! l = Some o' ∧ frozen o' = true ∧ bitfield o' = bitfield o)
  ∧ (∀ this h o, h !! this = Some o →
       ∃ h1 o1,
         freeze this h = Some (this, h1)
         ∧ h1 !! this = Some o1
         ∧ frozen o1 = true ∧ bitfield o1 = bitfield o
         ∧ freeze this h1 = Some (this, h1)
         ∧ ∀ mu, mutate mu this h1 = Some (this, h1)).
Proof.
  split; [| split].
  - intros c bits h Hwf. rewrite new_eq.
    assert (Hwf' : bits_wf h (match bits with
                              | BUndefined => BBigInt (DefaultBit c)
                              | _ => bits
                              end) = true) by (destruct bits; auto).
    destruct (resolve_total c h _ Hwf') as [v ->].
    exists (fresh c v). split; reflexivity.
  - intros call h u h' l o Hexec Hl Hf. apply exec_cases in Hexec.
    destruct call as [c bits | | | |];
      try (eapply changes_frozen; eassumption).
    destruct Hexec as (v & _ & ->). exists o.
    rewrite lookup_app_l by (eapply lookup_lt_Some, Hl). auto.
  - intros this h o Ho.
    assert (Hlt : (this < length h)%nat) by (eapply lookup_lt_Some, Ho).
    assert (H1 : <[this := set_frozen true o]> h !! this
                 = Some (set_frozen true o))
      by (apply list_lookup_insert_eq, Hlt).
    exists (<[this := set_frozen true o]> h), (set_frozen true o).
    split; [apply freeze_eq, Ho |].
    split; [exact H1 |].
    split; [reflexivity |].
    split; [reflexivity |].
    split.
    + rewrite (freeze_eq _ _ _ H1). rewrite list_insert_insert_eq.
      reflexivity.
    + intros mu. apply (mutate_frozen mu this _ _ H1). reflexivity.
Qed.

Lemma frozen_is_final_witness :
  (∃ o, new Permissions (BString "Read") [] = Some (0%nat, [o])
        ∧ frozen o = false)
  ∧ (∃ o', [set_frozen true (fresh Permissions 1); fresh Permissions 14]
             !! 0%nat = Some o'
           ∧ frozen o' = true ∧ bitfield o' = 1)
  ∧ (∃ h1 o1,
       freeze 0%nat [fresh Permissions 1] = Some (0%nat, h1)
       ∧ h1 !! 0%nat = Some o1
       ∧ frozen o1 = true ∧ bitfield o1 = 1
       ∧ freeze 0%nat h1 = Some (0%nat, h1)
       ∧ ∀ mu, mutate mu 0%nat h1 = Some (0%nat, h1)).
Proof.
  destruct frozen_is_final as (Hnew & Hmono & Hfreeze).
  split; [| split].
  - apply (Hnew Permissions (BString "Read") []). reflexivity.
  - apply (Hmono (CDerive 0%nat Missing)
             [set_frozen true (fresh Permissions 1)] tt _ 0%nat
             (set_frozen true (fresh Permissions 1)));
      reflexivity.
  - apply (Hfreeze 0%nat [fresh Permissions 1] (fresh Permissions 1)).
    reflexivity.
Defined.

(** ** C9 and C10: derivations *)

(** C9. Every derivation method, for every receiver and every accepted
    argument, returns a reference that was not allocated before the call,
    hence distinct from the receiver, and leaves the receiver (its value and
    its frozen flag) and every other existing instance as they were. *)
Theorem derivation_leaves_receiver (d : Derivation) (this : loc) (h : heap)
    (o : Instance) :
  h !! this = Some o → bits_wf h (derivation_bits d) = true →
  ∃ l h' o',
    derive d this h = Some (l, h')
    ∧ l ≠ this
    ∧ h !! l = None ∧ h' !! l = Some o'
    ∧ h' !! this = Some o
    ∧ ∀ l0 o0, h !! l0 = Some o0 → h' !! l0 = Some o0.
Proof.
  intros Ho Hwf.
  destruct (derive_total d this h (mk_is_Some _ _ Ho) Hwf) as [[l h'] Hd].
  destruct (derive_shape d this h h' l Hd) as (o1 & v & Ho1 & -> & ->).
  assert (Hlt : (this < length h)%nat) by (eapply lookup_lt_Some, Ho).
  eexists (length h), _, _.
  split; [exact Hd |].
  split; [lia |].
  split; [apply lookup_ge_None; lia |].
  split; [apply lookup_last |].
  split.
  - rewrite lookup_app_l by exact Hlt. exact Ho.
  - intros l0 o0 Hl0.
    rewrite lookup_app_l by (eapply lookup_lt_Some, Hl0). exact Hl0.
Qed.

Lemma derivation_leaves_receiver_witness :
  ∃ l h' o',
    derive (SymmetricDifference (BInstance 0%nat)) 0%nat
      [set_frozen true (fresh Permissions 3)] = Some (l, h')
    ∧ l ≠ 0%nat
    ∧ [set_frozen true (fresh Permissions 3)] !! l = None
    ∧ h' !! l = Some o'
    ∧ h' !! 0%nat = Some (set_frozen true (fresh Permissions 3))
    ∧ ∀ l0 o0, [set_frozen true (fresh Permissions 3)] !! l0 = Some o0 →
               h' !! l0 = Some o0.
Proof.
  apply (derivation_leaves_receiver (SymmetricDifference (BInstance 0%nat))
           0%nat [set_frozen true (fresh Permissions 3)]
           (set_frozen true (fresh Permissions 3)));
    reflexivity.
Defined.

(** C10. Every derivation method returns an unfrozen instance, also on a
    frozen receiver, and computes its result as on an unfrozen one: the new
    instance holds [derived_value] of the receiver's value and the resolved
    argument, and [isFrozen] on it returns false. *)
Theorem derivation_is_unfrozen (d : Derivation) (this : loc) (h : heap)
    (o : Instance) :
  h !! this = Some o → bits_wf h (derivation_bits d) = true →
  ∃ r l h' o',
    resolve (con o) h (derivation_bits d) = Some r
    ∧ derive d this h = Some (l, h')
    ∧ h' !! l = Some o'
    ∧ isFrozen l h' = Some (false, h')
    ∧ bitfield o' = derived_value d (bitfield o) r (getMask (con o)).
Proof.
  intros Ho Hwf.
  destruct (resolve_total (con o) h _ Hwf) as [r Hr].
  pose (o' := fresh (con o)
                (derived_value d (bitfield o) r (getMask (con o)))).
  exists r, (length h), (h ++ [o']), o'.
  split; [exact Hr |].
  split; [apply derive_eq; assumption |].
  split; [apply lookup_last |].
  split; [unfold isFrozen, bind, deref; rewrite lookup_last; reflexivity |].
  reflexivity.
Qed.

Lemma derivation_is_unfrozen_witness :
  ∃ r l h' o',
    resolve Permissions [set_frozen true (fresh Permissions 3)]
      (BArray [BString "Write"; BString "Admin"]) = Some r
    ∧ derive (Without (BArray [BString "Write"; BString "Admin"])) 0%nat
        [set_frozen true (fresh Permissions 3)] = Some (l, h')
    ∧ h' !! l = Some o'
    ∧ isFrozen l h' = Some (false, h')
    ∧ bitfield o'
      = derived_value (Without (BArray [BString "Write"; BString "Admin"]))
          3 r (getMask Permissions).
Proof.
  apply (derivation_is_unfrozen
           (Without (BArray [BString "Write"; BString "Admin"])) 0%nat
           [set_frozen true (fresh Permissions 3)]
           (set_frozen true (fresh Permissions 3)));
    reflexivity.
Defined.

(** ** C5, C6 and C7: enumeration *)

Lemma yield_present_sublist (value : Z) (flags : list (string * Z)) :
  sublist (yield_present value flags) flags.*1.
Proof.
  induction flags as [| [flag bit] flags IH]; simpl; [constructor |].
  destruct (negb (Z.land value bit =? 0)); constructor; exact IH.
Qed.

Lemma orderedFlags_names (c : Class) :
  (orderedFlags c).*1 ≡ₚ Reflect_ownKeys (Flags c).
Proof.
  unfold orderedFlags. rewrite Array_sort_perm. unfold ownEntries.
  rewrite <- list_fmap_compose.
  induction (Reflect_ownKeys (Flags c)) as [| k ks IH]; simpl;
    [reflexivity | by rewrite IH].
Qed.

(** What the generator yields for an instance of a built store. *)
Lemma iterator_spec (h : heap) (this : loc) (o : Instance) :
  built h → h !! this = Some o →
  Symbol_iterator this h
  = Some (yield_present (bitfield o) (orderedFlags (con o)), h).
Proof.
  intros Hb Ho. unfold Symbol_iterator, bind, deref. rewrite Ho.
  rewrite (built_consistent h Hb this o Ho). reflexivity.
Qed.

(** C5. The ascending iteration, and [toArray] with it, yields exactly the
    declared flag names whose declared value [v] satisfies
    [value & v != 0], each once, in ascending order of declared value; with
    the definition [{Read:1, Write:2, Execute:4, Admin:8}], the instance
    constructed from [['Write','Read']] has [toArray()] equal to
    [['Read','Write']]. *)
Theorem toArray_yields_present_flags :
  (∀ h this o, built h → h !! this = Some o →
     ∃ names,
       Symbol_iterator this h = Some (names, h)
       ∧ toArray this h = Some (names, h)
       ∧ (∀ k, k ∈ names ↔
               ∃ v, get (Flags (con o)) k = Some v
                    ∧ Z.land (bitfield o) v ≠ 0)
       ∧ StronglySorted Z.le
           ((λ k, default 0 (get (Flags (con o)) k)) <$> names)
       ∧ (NoDup (Reflect_ownKeys (Flags (con o))) → NoDup names))
  ∧ (∃ h, run [CNew Permissions (BArray [BString "Write"; BString "Read"])]
            [] = Some h
          ∧ toArray 0%nat h = Some (["Read"%string; "Write"%string], h)).
Proof.
  split.
  - intros h this o Hb Ho.
    exists (yield_present (bitfield o) (orderedFlags (con o))).
    split; [apply iterator_spec; assumption |].
    split; [apply iterator_spec; assumption |].
    split; [| split].
    + intros k. rewrite yield_present_elem. split.
      * intros (v & Hv%orderedFlags_elem & Hne). eauto.
      * intros (v & Hv%orderedFlags_elem & Hne). eauto.
    + apply yield_present_ascending; [| apply Array_sort_ascending].
      intros k b Hkb%orderedFlags_elem. rewrite Hkb. reflexivity.
    + intros Hnodup. eapply sublist_NoDup; [| apply yield_present_sublist].
      rewrite orderedFlags_names. exact Hnodup.
  - exists [fresh Permissions 3]. split; reflexivity.
Qed.

Lemma toArray_yields_present_flags_witness :
  ∃ names,
    Symbol_iterator 0%nat [fresh Permissions 12]
    = Some (names, [fresh Permissions 12])
    ∧ toArray 0%nat [fresh Permissions 12]
      = Some (names, [fresh Permissions 12])
    ∧ (∀ k, k ∈ names ↔
            ∃ v, get (Flags Permissions) k = Some v ∧ Z.land 12 v ≠ 0)
    ∧ StronglySorted Z.le
        ((λ k, default 0 (get (Flags Permissions) k)) <$> names)
    ∧ (NoDup (Reflect_ownKeys (Flags Permissions)) → NoDup names).
Proof.
  destruct toArray_yields_present_flags as [Hall _].
  apply (Hall [fresh Permissions 12] 0%nat (fresh Permissions 12)).
  - exists [CNew Permissions (BArray [BString "Admin"; BString "Execute"])].
    reflexivity.
  - reflexivity.
Defined.

(** C6 as stated fails: a flag declared with value 0 is not yielded.  With
    [{Read: 1n, None: 0n}] the instance constructed from ['Read'] yields
    ['Read'] only. *)
Lemma zero_flag_is_not_yielded :
  run [CNew WithNone (BString "Read")] [] = Some [fresh WithNone 1]
  ∧ get (Flags WithNone) "None" = Some 0
  ∧ toArray 0%nat [fresh WithNone 1]
    = Some (["Read"%string], [fresh WithNone 1]).
Proof. repeat split; reflexivity. Qed.

(** C6, amended.  For every instance, a flag declared with value 0 never
    counts as present: the ascending iteration, and [toArray] with it, never
    yields its name, whatever the instance's current value. *)
Theorem zero_flag_never_yielded (h : heap) (this : loc) (o : Instance)
    (k : string) :
  built h → h !! this = Some o → get (Flags (con o)) k = Some 0 →
  ∃ names,
    Symbol_iterator this h = Some (names, h)
    ∧ toArray this h = Some (names, h)
    ∧ k ∉ names.
Proof.
  intros Hb Ho Hk.
  exists (yield_present (bitfield o) (orderedFlags (con o))).
  split; [apply iterator_spec; assumption |].
  split; [apply iterator_spec; assumption |].
  intros (v & Hv%orderedFlags_elem & Hne)%yield_present_elem.
  rewrite Hk in Hv. injection Hv as <-.
  rewrite Z.land_0_r in Hne. contradiction.
Qed.

Lemma zero_flag_never_yielded_witness :
  ∃ names,
    Symbol_iterator 0%nat [fresh WithNone 1]
    = Some (names, [fresh WithNone 1])
    ∧ toArray 0%nat [fresh WithNone 1] = Some (names, [fresh WithNone 1])
    ∧ "None"%string ∉ names.
Proof.
  apply (zero_flag_never_yielded [fresh WithNone 1] 0%nat (fresh WithNone 1)).
  - exists [CNew WithNone (BNumber 1)]. reflexivity.
  - reflexivity.
  - reflexivity.
Defined.

(** C7. [findIndex] tests the predicate against all the declared flags in
    ascending declared-value order, present or not: it returns the index,
    within the ordering that [entries()] returns, of the first flag whose
    name satisfies the predicate, or -1 when no declared flag does; the
    instance's value plays no part. *)
Theorem findIndex_over_declared_flags (h : heap) (this : loc) (o : Instance)
    (predicate : string → bool) :
  built h → h !! this = Some o →
  ∃ i,
    findIndex this predicate h = Some (i, h)
    ∧ entries this h = Some (orderedFlags (con o), h)
    ∧ ascending (orderedFlags (con o))
    ∧ (∀ k v, (k, v) ∈ orderedFlags (con o) ↔ get (Flags (con o)) k = Some v)
    ∧ ((i = -1 ∧ ∀ k v, get (Flags (con o)) k = Some v → predicate k = false)
       ∨ (∃ k v,
            0 ≤ i
            ∧ orderedFlags (con o) !! Z.to_nat i = Some (k, v)
            ∧ predicate k = true
            ∧ ∀ j k' v', (j < Z.to_nat i)%nat →
                orderedFlags (con o) !! j = Some (k', v') →
                predicate k' = false))
    ∧ ∀ value,
        findIndex this predicate (<[this := set_bitfield value o]> h)
        = Some (i, <[this := set_bitfield value o]> h).
Proof.
  intros Hb Ho.
  pose proof (built_consistent h Hb this o Ho) as Hflags.
  exists (findIndex_from predicate 0 (orderedFlags (con o))).
  split; [unfold findIndex, bind, deref; rewrite Ho, Hflags; reflexivity |].
  split; [unfold entries, bind, deref; rewrite Ho, Hflags; reflexivity |].
  split; [apply Array_sort_ascending |].
  split; [intros k v; apply orderedFlags_elem |].
  split.
  - destruct (findIndex_from_spec predicate 0 (orderedFlags (con o)))
      as [[Hr Hall] | (n & k & v & Hr & Hn & Hk & Hbefore)]; [lia | |].
    + left. split; [exact Hr |].
      intros k v Hkv%orderedFlags_elem. eapply Hall, Hkv.
    + right. exists k, v. rewrite Hr, Z.add_0_l, Nat2Z.id.
      repeat split; [lia | exact Hn | exact Hk | exact Hbefore].
  - intros value. unfold findIndex, bind, deref.
    rewrite list_lookup_insert_eq by (eapply lookup_lt_Some, Ho).
    simpl. rewrite Hflags. reflexivity.
Qed.

Lemma findIndex_over_declared_flags_witness :
  ∃ i,
    findIndex 0%nat (λ k, bool_decide (k = "Execute"%string))
      [fresh Permissions 1] = Some (i, [fresh Permissions 1])
    ∧ entries 0%nat [fresh Permissions 1]
      = Some (orderedFlags Permissions, [fresh Permissions 1])
    ∧ ascending (orderedFlags Permissions)
    ∧ (∀ k v, (k, v) ∈ orderedFlags Permissions ↔
              get (Flags Permissions) k = Some v)
    ∧ ((i = -1 ∧ ∀ k v, get (Flags Permissions) k = Some v →
                        bool_decide (k = "Execute"%string) = false)
       ∨ (∃ k v,
            0 ≤ i
            ∧ orderedFlags Permissions !! Z.to_nat i = Some (k, v)
            ∧ bool_decide (k = "Execute"%string) = true
            ∧ ∀ j k' v', (j < Z.to_nat i)%nat →
                orderedFlags Permissions !! j = Some (k', v') →
                bool_decide (k' = "Execute"%string) = false))
    ∧ ∀ value,
        findIndex 0%nat (λ k, bool_decide (k = "Execute"%string))
          (<[0%nat := set_bitfield value (fresh Permissions 1)]>
             [fresh Permissions 1])
        = Some (i, <[0%nat := set_bitfield value (fresh Permissions 1)]>
                     [fresh Permissions 1]).
Proof.
  apply (findIndex_over_declared_flags [fresh Permissions 1] 0%nat
           (fresh Permissions 1)
           (λ k, bool_decide (k = "Execute"%string))).
  - exists [CNew Permissions (BString "Read")]. reflexivity.
  - reflexivity.
Defined.

(** * Further properties of the code *)

(** ** [getMask] and [getMaxBit] *)

Lemma fold_lor_testbit (values : list Z) (a n : Z) :
  0 ≤ n →
  Z.testbit (fold_left (λ a b, Z.lor a b) values a) n = true ↔
  Z.testbit a n = true ∨ ∃ v, v ∈ values ∧ Z.testbit v n = true.
Proof.
  intros Hn. revert a. induction values as [| x values IH]; intros a; simpl.
  - split; [auto | intros [H | (v & Hv & _)]; [exact H | inversion Hv]].
  - rewrite IH, Z.lor_spec, orb_true_iff. split.
    + intros [[Ha | Hx] | (v & Hv & Hbit)]; [auto | |].
      * right. exists x. split; [left | exact Hx].
      * right. exists v. split; [right; exact Hv | exact Hbit].
    + intros [Ha | (v & Hv & Hbit)]; [auto |].
      apply elem_of_cons in Hv as [-> | Hv]; [auto |].
      right. eauto.
Qed.

(** The mask has exactly the bits that some declared value has: a bit is
    set in [getMask()] iff it is set in the value of a declared flag. *)
Theorem getMask_collects_declared_bits (c : Class) (n : Z) :
  0 ≤ n →
  Z.testbit (getMask c) n = true ↔
  ∃ k v, (k, v) ∈ Flags c ∧ Z.testbit v n = true.
Proof.
  intros Hn. unfold getMask, Object_values.
  rewrite (fold_lor_testbit _ 0 n Hn), Z.bits_0. split.
  - intros [H | (v & Hv & Hbit)]; [discriminate |].
    apply list_elem_of_fmap in Hv as ([k v'] & -> & Hkv). eauto.
  - intros (k & v & Hkv & Hbit). right. exists v. split; [| exact Hbit].
    apply list_elem_of_fmap. exists (k, v). auto.
Qed.

Lemma getMask_collects_declared_bits_witness :
  Z.testbit (getMask Permissions) 2 = true ↔
  ∃ k v, (k, v) ∈ Flags Permissions ∧ Z.testbit v 2 = true.
Proof. apply (getMask_collects_declared_bits Permissions 2). lia. Defined.

Lemma fold_max_spec (values : list Z) (a : Z) :
  let r := fold_left (λ a b, if a >? b then a else b) values a in
  a ≤ r ∧ (∀ v, v ∈ values → v ≤ r) ∧ (r = a ∨ r ∈ values).
Proof.
  revert a. induction values as [| x values IH]; intros a; simpl.
  - split; [lia |]. split; [intros v Hv; inversion Hv | left; reflexivity].
  - destruct (IH (if a >? x then a else x)) as (Hle & Hall & Hin).
    assert (Hstep : a ≤ (if a >? x then a else x)
                    ∧ x ≤ (if a >? x then a else x)).
    { rewrite Z.gtb_ltb.
      destruct (x <? a) eqn:Hlt;
        [apply Z.ltb_lt in Hlt | apply Z.ltb_ge in Hlt]; lia. }
    split; [lia |]. split.
    + intros v Hv. apply elem_of_cons in Hv as [-> | Hv]; [lia | auto].
    + destruct Hin as [Hr | Hr]; [| right; right; exact Hr].
      rewrite Hr. destruct (a >? x); [left; reflexivity | right; left].
Qed.

(** [getMaxBit()] is the greatest declared value, and 0 when no flag is
    declared or every declared value is negative: it is non-negative, no
    declared value exceeds it, and it is 0 or the value of a declared flag. *)
Theorem getMaxBit_is_greatest (c : Class) :
  0 ≤ getMaxBit c
  ∧ (∀ k v, (k, v) ∈ Flags c → v ≤ getMaxBit c)
  ∧ (getMaxBit c = 0 ∨ ∃ k, (k, getMaxBit c) ∈ Flags c).
Proof.
  unfold getMaxBit, Object_values.
  destruct (fold_max_spec (Flags c).*2 0) as (Hle & Hall & Hin).
  split; [exact Hle |]. split.
  - intros k v Hkv. apply Hall. apply list_elem_of_fmap. exists (k, v). auto.
  - destruct Hin as [Hr | Hr]; [left; exact Hr | right].
    apply list_elem_of_fmap in Hr as ([k v] & Hv & Hkv). simpl in Hv.
    exists k. rewrite Hv. exact Hkv.
Qed.

Lemma getMaxBit_is_greatest_witness :
  getMaxBit Permissions = 8 ∧ 4 ≤ getMaxBit Permissions.
Proof.
  destruct (getMaxBit_is_greatest Permissions) as (_ & Hall & _).
  split; [reflexivity |].
  apply (Hall "Execute"%string 4). right. right. left.
Defined.

(** ** [resolve] on arrays and on inputs without instances *)

Lemma lor_opt_assoc (a b c : option Z) :
  lor_opt a (lor_opt b c) = lor_opt (lor_opt a b) c.
Proof.
  destruct a, b, c; simpl; try reflexivity. by rewrite Z.lor_assoc.
Qed.

Lemma lor_opt_comm (a b : option Z) : lor_opt a b = lor_opt b a.
Proof. destruct a, b; simpl; try reflexivity. by rewrite Z.lor_comm. Qed.

Lemma or_step_lor_opt (c : Class) (h : heap) (a : option Z) (b : Bit) :
  or_step c h a b = lor_opt a (resolve c h b).
Proof. reflexivity. Qed.

Lemma fold_or_step_from (c : Class) (h : heap) (bs : list Bit)
    (a : option Z) :
  fold_left (or_step c h) bs a
  = lor_opt a (fold_left (or_step c h) bs (Some 0)).
Proof.
  revert a. induction bs as [| b bs IH]; intros a; cbn [fold_left].
  - destruct a; simpl; [by rewrite Z.lor_0_r | reflexivity].
  - rewrite (IH (or_step c h a b)), (IH (or_step c h (Some 0) b)).
    rewrite !or_step_lor_opt, lor_opt_assoc. f_equal.
    destruct a, (resolve c h b); reflexivity.
Qed.

Lemma resolve_cons (c : Class) (h : heap) (b : Bit) (bs : list Bit) :
  resolve c h (BArray (b :: bs))
  = lor_opt (resolve c h b) (resolve c h (BArray bs)).
Proof.
  rewrite !resolve_array. cbn [fold_left]. rewrite fold_or_step_from.
  rewrite or_step_lor_opt. f_equal. destruct (resolve c h b); reflexivity.
Qed.

(** An array resolves to the OR of what its elements resolve to, so the
    order of the elements, their grouping into nested arrays and their
    repetition make no difference. *)
Theorem resolve_array_as_union (c : Class) (h : heap) :
  (∀ b bs, resolve c h (BArray (b :: bs))
           = lor_opt (resolve c h b) (resolve c h (BArray bs)))
  ∧ (∀ bs1 bs2, resolve c h (BArray (bs1 ++ bs2))
                = lor_opt (resolve c h (BArray bs1))
                    (resolve c h (BArray bs2)))
  ∧ (∀ bs bs', bs ≡ₚ bs' →
               resolve c h (BArray bs) = resolve c h (BArray bs'))
  ∧ (∀ bs1 bs2, resolve c h (BArray [BArray bs1; BArray bs2])
                = resolve c h (BArray (bs1 ++ bs2)))
  ∧ (∀ b bs, resolve c h (BArray (b :: b :: bs))
             = resolve c h (BArray (b :: bs))).
Proof.
  assert (Happ : ∀ bs1 bs2, resolve c h (BArray (bs1 ++ bs2))
                 = lor_opt (resolve c h (BArray bs1))
                     (resolve c h (BArray bs2))).
  { intros bs1 bs2. induction bs1 as [| b bs1 IH].
    - simpl app. change (resolve c h (BArray [])) with (Some 0).
      destruct (resolve c h (BArray bs2)); reflexivity.
    - rewrite <- app_comm_cons, !resolve_cons, IH. apply lor_opt_assoc. }
  split; [apply resolve_cons |]. split; [exact Happ |]. split; [| split].
  - intros bs bs' Hperm.
    induction Hperm as [| b bs bs' Hperm IH | x y bs | bs bs' bs'' H1 IH1 H2 IH2].
    + reflexivity.
    + by rewrite !resolve_cons, IH.
    + rewrite !resolve_cons, !lor_opt_assoc.
      by rewrite (lor_opt_comm (resolve c h y)).
    + by rewrite IH1.
  - intros bs1 bs2. rewrite Happ, !resolve_cons.
    change (resolve c h (BArray [])) with (Some 0).
    destruct (resolve c h (BArray bs1)), (resolve c h (BArray bs2)); simpl;
      try reflexivity.
    by rewrite Z.lor_0_r.
  - intros b bs. rewrite !resolve_cons, lor_opt_assoc. f_equal.
    destruct (resolve c h b); simpl; [by rewrite Z.lor_diag | reflexivity].
Qed.

Lemma resolve_array_as_union_witness :
  resolve Permissions []
    (BArray [BString "Admin"; BNumber 3; BString "Read"])
  = resolve Permissions []
      (BArray [BString "Read"; BString "Admin"; BNumber 3]).
Proof.
  destruct (resolve_array_as_union Permissions []) as (_ & _ & Hperm & _).
  apply Hperm. symmetry.
  apply (Permutation_cons_append [BString "Admin"; BNumber 3] (BString "Read")).
Defined.

Lemma instance_free_wf (h : heap) (bits : Bit) :
  instance_free bits = true → bits_wf h bits = true.
Proof.
  induction bits as [| | | | | l | bs IH | |] using Bit_nested_ind;
    simpl; intros Hfree; auto; [discriminate |].
  induction bs as [| b bs IHbs]; simpl in *; [reflexivity |].
  apply andb_prop in Hfree as [Hb Hbs].
  inversion IH as [| ? ? IHb IHrest]; subst.
  rewrite (IHb Hb). simpl. apply IHbs; assumption.
Qed.

Lemma instance_free_within (mask : Z) (h : heap) (bits : Bit) :
  instance_free bits = true → instances_within mask h bits.
Proof.
  induction bits as [| | | | | l | bs IH | |] using Bit_nested_ind;
    simpl; intros Hfree; auto; [discriminate |].
  induction bs as [| b bs IHbs]; simpl in *; [exact I |].
  apply andb_prop in Hfree as [Hb Hbs].
  inversion IH as [| ? ? IHb IHrest]; subst.
  split; [apply IHb, Hb | apply IHbs; assumption].
Qed.

Lemma resolve_instance_free (c : Class) (h h' : heap) (bits : Bit) :
  instance_free bits = true → resolve c h bits = resolve c h' bits.
Proof.
  induction bits as [| | | | | l | bs IH | |] using Bit_nested_ind;
    simpl; intros Hfree; auto; [discriminate |].
  change (resolve c h (BArray bs) = resolve c h' (BArray bs)).
  induction bs as [| b bs IHbs]; [reflexivity |].
  simpl in Hfree. apply andb_prop in Hfree as [Hb Hbs].
  inversion IH as [| ? ? IHb IHrest]; subst.
  rewrite !resolve_cons, (IHb Hb), (IHbs IHrest Hbs). reflexivity.
Qed.

(** An input that contains no instance (flag names, integers, booleans and
    arrays of them) always resolves, whatever the store, to a value within
    the mask, and resolving that value again returns it: [resolve]
    normalises such inputs and is idempotent on them. *)
Theorem resolve_normalizes (c : Class) (h : heap) (bits : Bit) :
  instance_free bits = true →
  ∃ r, resolve c h bits = Some r
       ∧ within (getMask c) r
       ∧ resolve c h (BBigInt r) = Some r
       ∧ ∀ h', resolve c h' bits = Some r.
Proof.
  intros Hfree.
  destruct (resolve_total c h bits (instance_free_wf h bits Hfree))
    as [r Hr].
  assert (Hin : within (getMask c) r).
  { eapply resolve_within; [| exact Hr].
    apply instance_free_within, Hfree. }
  exists r. split; [exact Hr |]. split; [exact Hin |]. split.
  - simpl. rewrite (within_land_id _ _ Hin). reflexivity.
  - intros h'. rewrite <- Hr. apply resolve_instance_free, Hfree.
Qed.

Lemma resolve_normalizes_witness :
  ∃ r, resolve Permissions []
         (BArray [BString "Write"; BNumber 100; BBoolean true]) = Some r
       ∧ within (getMask Permissions) r
       ∧ resolve Permissions [] (BBigInt r) = Some r
       ∧ ∀ h', resolve Permissions h'
                 (BArray [BString "Write"; BNumber 100; BBoolean true])
               = Some r.
Proof.
  apply (resolve_normalizes Permissions []
           (BArray [BString "Write"; BNumber 100; BBoolean true])).
  reflexivity.
Defined.

(** ** [has] and [equals] *)





(** An instance equals the input it was constructed from: for every
    accepted input, [new C(bits).equals(bits)] is true ([DefaultBit] standing
    for an absent input, since the constructor then starts from it). *)
Theorem constructed_equals_input (c : Class) (bits : Bit) (h : heap) :
  bits_wf h bits = true →
  ∃ l h',
    new c bits h = Some (l, h')
    ∧ equals l (match bits with
                | BUndefined => BBigInt (DefaultBit c)
                | _ => bits
                end) h' = Some (true, h').
Proof.
  intros Hwf. rewrite new_eq.
  set (bits' := match bits with
                | BUndefined => BBigInt (DefaultBit c)
                | _ => bits
                end).
  assert (Hwf' : bits_wf h bits' = true) by (destruct bits; auto).
  destruct (resolve_total c h bits' Hwf') as [r Hr]. rewrite Hr.
  exists (length h), (h ++ [fresh c r]). split; [reflexivity |].
  unfold equals, bind, deref, resolveM, ret. rewrite lookup_last. simpl.
  rewrite (resolve_app c h _ bits' Hwf'), Hr, Z.eqb_refl. reflexivity.
Qed.

Lemma constructed_equals_input_witness :
  ∃ l h',
    new Permissions (BArray [BString "Read"; BString "Execute"; BNumber 16])
      [] = Some (l, h')
    ∧ equals l (BArray [BString "Read"; BString "Execute"; BNumber 16]) h'
      = Some (true, h').
Proof.
  apply (constructed_equals_input Permissions
           (BArray [BString "Read"; BString "Execute"; BNumber 16]) []).
  reflexivity.
Defined.

(** ** The algebra of the derivations *)

(** Decide a bitwise identity by cases on the bits involved. *)
Ltac bit_cases :=
  let n := fresh "n" in
  let Hn := fresh "Hn" in
  bitwise n Hn;
  repeat match goal with
         | |- context [Z.testbit ?x n] => destruct (Z.testbit x n)
         end;
  reflexivity.

Lemma value_at_last (h : heap) (o : Instance) :
  value_at (h ++ [o]) (length h) = Some (bitfield o).
Proof. unfold value_at. rewrite lookup_last. reflexivity. Qed.

(** Two derivations in a row, [x.d1(...).d2(...)], on arguments of the
    original store. *)
Lemma derive_then (d1 d2 : Derivation) (this : loc) (h : heap) (o : Instance)
    (r1 r2 : Z) :
  h !! this = Some o →
  bits_wf h (derivation_bits d1) = true →
  bits_wf h (derivation_bits d2) = true →
  resolve (con o) h (derivation_bits d1) = Some r1 →
  resolve (con o) h (derivation_bits d2) = Some r2 →
  let m := getMask (con o) in
  let v1 := derived_value d1 (bitfield o) r1 m in
  (x <- derive d1 this ;; derive d2 x) h
  = Some (S (length h),
          (h ++ [fresh (con o) v1])
            ++ [fresh (con o) (derived_value d2 v1 r2 m)]).
Proof.
  intros Ho Hwf1 Hwf2 Hr1 Hr2 m v1. unfold bind.
  rewrite (derive_eq d1 this h o r1 Ho Hwf1 Hr1). fold m v1.
  rewrite (derive_eq d2 (length h) (h ++ [fresh (con o) v1])
             (fresh (con o) v1) r2).
  - rewrite length_app. simpl. rewrite Nat.add_1_r. reflexivity.
  - apply lookup_last.
  - apply bits_wf_app, Hwf2.
  - simpl. rewrite resolve_app by exact Hwf2. exact Hr2.
Qed.

Lemma value_at_second (h : heap) (o1 o2 : Instance) :
  value_at ((h ++ [o1]) ++ [o2]) (S (length h)) = Some (bitfield o2).
Proof.
  replace (S (length h)) with (length (h ++ [o1]))
    by (rewrite length_app; simpl; lia).
  apply value_at_last.
Qed.

(** What [without] or [difference] returns has none of the removed bits:
    [x.without(b).has(b)] and [x.difference(b).has(b)] are false, for every
    receiver and every accepted argument. *)
Theorem removed_bits_are_absent (this : loc) (bit : Bit) (h : heap)
    (o : Instance) :
  h !! this = Some o → bits_wf h bit = true →
  (∃ l h', without this bit h = Some (l, h')
           ∧ has l bit h' = Some (false, h'))
  ∧ (∃ l h', difference this bit h = Some (l, h')
             ∧ has l bit h' = Some (false, h')).
Proof.
  intros Ho Hwf.
  destruct (resolve_total (con o) h bit Hwf) as [r Hr].
  assert (Hhas : ∀ v, Z.land v r = 0 →
            has (length h) bit (h ++ [fresh (con o) v])
            = Some (false, h ++ [fresh (con o) v])).
  { intros v Hv.
    rewrite (has_eq (length h) bit _ (fresh (con o) v) r).
    - simpl. rewrite Hv. reflexivity.
    - apply lookup_last.
    - simpl. rewrite resolve_app by exact Hwf. exact Hr. }
  split.
  - eexists _, _. split; [apply (derive_eq (Without bit) this h o r Ho Hwf Hr) |].
    apply Hhas. simpl. bit_cases.
  - eexists _, _.
    split; [apply (derive_eq (Difference bit) this h o r Ho Hwf Hr) |].
    apply Hhas. simpl. bit_cases.
Qed.

Lemma removed_bits_are_absent_witness :
  (∃ l h', without 0%nat (BArray [BString "Read"; BNumber 4])
             [fresh Permissions 7] = Some (l, h')
           ∧ has l (BArray [BString "Read"; BNumber 4]) h'
             = Some (false, h'))
  ∧ (∃ l h', difference 0%nat (BArray [BString "Read"; BNumber 4])
               [fresh Permissions 7] = Some (l, h')
             ∧ has l (BArray [BString "Read"; BNumber 4]) h'
               = Some (false, h')).
Proof.
  apply (removed_bits_are_absent 0%nat (BArray [BString "Read"; BNumber 4])
           [fresh Permissions 7] (fresh Permissions 7));
    reflexivity.
Defined.

(** [without] and [difference] are the same operation: on every receiver
    and every accepted argument they return the same new instance and leave
    the same store. *)
Theorem without_is_difference (this : loc) (bit : Bit) (h : heap)
    (o : Instance) :
  h !! this = Some o → bits_wf h bit = true →
  without this bit h = difference this bit h
  ∧ is_Some (without this bit h).
Proof.
  intros Ho Hwf.
  destruct (resolve_total (con o) h bit Hwf) as [r Hr].
  pose proof (derive_eq (Without bit) this h o r Ho Hwf Hr) as Hw.
  pose proof (derive_eq (Difference bit) this h o r Ho Hwf Hr) as Hd.
  simpl in Hw, Hd. rewrite Hw, Hd. split; [| eauto].
  assert (Hv : Z.land (Z.land (Z.land (bitfield o) (getMask (con o)))
                         (Z.lnot r)) (getMask (con o))
               = Z.land (Z.land (bitfield o) (Z.lnot r)) (getMask (con o)))
    by bit_cases.
  rewrite Hv. reflexivity.
Qed.

Lemma without_is_difference_witness :
  without 0%nat (BString "Write") [fresh Permissions 3]
  = difference 0%nat (BString "Write") [fresh Permissions 3]
  ∧ is_Some (without 0%nat (BString "Write") [fresh Permissions 3]).
Proof.
  apply (without_is_difference 0%nat (BString "Write") [fresh Permissions 3]
           (fresh Permissions 3));
    reflexivity.
Defined.

(** A derivation that has a mutating counterpart returns an instance with
    exactly the value that the counterpart stores in the receiver when it is
    not frozen: [with]/[union] and [add], [without] and [remove],
    [missing]/[complement] and [invert]. *)
Theorem derivation_agrees_with_mutation (d : Derivation) (mu : Mutation)
    (this : loc) (h : heap) (o : Instance) :
  mutation_of d = Some mu →
  h !! this = Some o → frozen o = false →
  bits_wf h (derivation_bits d) = true →
  ∃ l h1 h2 v,
    derive d this h = Some (l, h1)
    ∧ mutate mu this h = Some (this, h2)
    ∧ value_at h1 l = Some v
    ∧ value_at h2 this = Some v.
Proof.
  intros Hmu Ho Hf Hwf.
  destruct (resolve_total (con o) h _ Hwf) as [r Hr].
  assert (Hlt : (this < length h)%nat) by (eapply lookup_lt_Some, Ho).
  assert (Hbits : mutation_bits mu = derivation_bits d)
    by (destruct d; simpl in Hmu; try discriminate;
        injection Hmu as <-; reflexivity).
  assert (Hval : mutated_value mu (bitfield o) r (getMask (con o))
                 = derived_value d (bitfield o) r (getMask (con o))).
  { destruct d; simpl in Hmu; try discriminate; injection Hmu as <-; simpl;
      try reflexivity; bit_cases. }
  rewrite <- Hbits in Hr.
  pose proof (mutate_unfrozen mu this h o r Ho Hf Hr) as Hm. cbv zeta in Hm.
  rewrite Hbits in Hr.
  eexists _, _, _, _.
  split; [apply (derive_eq d this h o r Ho Hwf Hr) |].
  split; [exact Hm |].
  split; [apply value_at_last |].
  rewrite <- Hval. unfold value_at.
  destruct mu; rewrite list_lookup_insert_eq;
    rewrite ?length_app; simpl; try lia; reflexivity.
Qed.

Lemma derivation_agrees_with_mutation_witness :
  ∃ l h1 h2 v,
    derive (Without (BString "Read")) 0%nat [fresh Permissions 3]
    = Some (l, h1)
    ∧ mutate (Remove (BString "Read")) 0%nat [fresh Permissions 3]
      = Some (0%nat, h2)
    ∧ value_at h1 l = Some v
    ∧ value_at h2 0%nat = Some v.
Proof.
  apply (derivation_agrees_with_mutation (Without (BString "Read"))
           (Remove (BString "Read")) 0%nat [fresh Permissions 3]
           (fresh Permissions 3));
    reflexivity.
Defined.

(** [with] (and [union]) accumulates like a set union: [x.with(a).with(b)]
    and [x.with(b).with(a)] hold the same value, [(value | a | b) & mask],
    and adding the same argument twice equals adding it once. *)
Theorem with_commutes (this : loc) (a b : Bit) (h : heap) (o : Instance) :
  h !! this = Some o → bits_wf h a = true → bits_wf h b = true →
  ∃ ra rb l h2 l' h2' l1 h1,
    resolve (con o) h a = Some ra
    ∧ resolve (con o) h b = Some rb
    ∧ (x <- with_ this a ;; with_ x b) h = Some (l, h2)
    ∧ (x <- with_ this b ;; with_ x a) h = Some (l', h2')
    ∧ value_at h2 l
      = Some (Z.land (Z.lor (Z.lor (bitfield o) ra) rb) (getMask (con o)))
    ∧ value_at h2' l' = value_at h2 l
    ∧ with_ this a h = Some (l1, h1)
    ∧ (x <- with_ this a ;; with_ x a) h
      = Some (S l1, h1 ++ [fresh (con o) (default 0 (value_at h1 l1))]).
Proof.
  intros Ho Ha Hb.
  destruct (resolve_total (con o) h a Ha) as [ra Hra].
  destruct (resolve_total (con o) h b Hb) as [rb Hrb].
  pose proof (derive_then (With a) (With b) this h o ra rb Ho Ha Hb Hra Hrb)
    as Hab.
  pose proof (derive_then (With b) (With a) this h o rb ra Ho Hb Ha Hrb Hra)
    as Hba.
  pose proof (derive_then (With a) (With a) this h o ra ra Ho Ha Ha Hra Hra)
    as Haa.
  cbv zeta in Hab, Hba, Haa. simpl derive in Hab, Hba, Haa.
  eexists ra, rb, _, _, _, _, _, _.
  split; [exact Hra |]. split; [exact Hrb |].
  split; [exact Hab |]. split; [exact Hba |].
  split; [rewrite value_at_second; simpl; f_equal; bit_cases |].
  split; [rewrite !value_at_second; simpl; f_equal; bit_cases |].
  split; [apply (derive_eq (With a) this h o ra Ho Ha Hra) |].
  rewrite Haa, value_at_last. simpl. do 5 f_equal. bit_cases.
Qed.

Lemma with_commutes_witness :
  ∃ ra rb l h2 l' h2' l1 h1,
    resolve Permissions [fresh Permissions 1] (BString "Write") = Some ra
    ∧ resolve Permissions [fresh Permissions 1] (BNumber 12) = Some rb
    ∧ (x <- with_ 0%nat (BString "Write") ;; with_ x (BNumber 12))
        [fresh Permissions 1] = Some (l, h2)
    ∧ (x <- with_ 0%nat (BNumber 12) ;; with_ x (BString "Write"))
        [fresh Permissions 1] = Some (l', h2')
    ∧ value_at h2 l
      = Some (Z.land (Z.lor (Z.lor 1 ra) rb) (getMask Permissions))
    ∧ value_at h2' l' = value_at h2 l
    ∧ with_ 0%nat (BString "Write") [fresh Permissions 1] = Some (l1, h1)
    ∧ (x <- with_ 0%nat (BString "Write") ;; with_ x (BString "Write"))
        [fresh Permissions 1]
      = Some (S l1,
              h1 ++ [fresh Permissions (default 0 (value_at h1 l1))]).
Proof.
  apply (with_commutes 0%nat (BString "Write") (BNumber 12)
           [fresh Permissions 1] (fresh Permissions 1));
    reflexivity.
Defined.

(** [symmetricDifference] undoes itself within the mask:
    [x.symmetricDifference(b).symmetricDifference(b)] holds
    [x.value & mask], for every receiver and every accepted argument. *)
Theorem symmetricDifference_twice (this : loc) (bit : Bit) (h : heap)
    (o : Instance) :
  h !! this = Some o → bits_wf h bit = true →
  ∃ l h2,
    (x <- symmetricDifference this bit ;; symmetricDifference x bit) h
    = Some (l, h2)
    ∧ value_at h2 l = Some (Z.land (bitfield o) (getMask (con o))).
Proof.
  intros Ho Hwf.
  destruct (resolve_total (con o) h bit Hwf) as [r Hr].
  pose proof (derive_then (SymmetricDifference bit) (SymmetricDifference bit)
                this h o r r Ho Hwf Hwf Hr Hr) as H2.
  cbv zeta in H2. simpl derive in H2.
  eexists _, _. split; [exact H2 |].
  rewrite value_at_second. simpl. f_equal. bit_cases.
Qed.

Lemma symmetricDifference_twice_witness :
  ∃ l h2,
    (x <- symmetricDifference 0%nat (BNumber 6) ;;
     symmetricDifference x (BNumber 6)) [fresh Permissions 3]
    = Some (l, h2)
    ∧ value_at h2 l = Some (Z.land 3 (getMask Permissions)).
Proof.
  apply (symmetricDifference_twice 0%nat (BNumber 6) [fresh Permissions 3]
           (fresh Permissions 3));
    reflexivity.
Defined.

(** An instance and its complement split the mask: for [c = x.missing()],
    [x.with(c)] holds the whole mask and [x.intersection(c)] holds 0. *)
Theorem complement_splits_mask (this : loc) (h : heap) (o : Instance) :
  h !! this = Some o →
  ∃ c h1 u h2 i h3,
    missing this h = Some (c, h1)
    ∧ with_ this (BInstance c) h1 = Some (u, h2)
    ∧ value_at h2 u = Some (getMask (con o))
    ∧ intersection this (BInstance c) h1 = Some (i, h3)
    ∧ value_at h3 i = Some 0.
Proof.
  intros Ho.
  assert (Hlt : (this < length h)%nat) by (eapply lookup_lt_Some, Ho).
  set (m := getMask (con o)).
  set (vc := Z.land (Z.land (Z.lnot (bitfield o)) m) m).
  set (h1 := h ++ [fresh (con o) vc]).
  assert (Ho1 : h1 !! this = Some o)
    by (unfold h1; rewrite lookup_app_l by exact Hlt; exact Ho).
  assert (Hwf : bits_wf h1 (BInstance (length h)) = true).
  { simpl. apply bool_decide_eq_true. unfold h1. rewrite length_app.
    simpl. lia. }
  assert (Hr : resolve (con o) h1 (BInstance (length h)) = Some vc)
    by (simpl; unfold h1; rewrite lookup_last; reflexivity).
  eexists (length h), h1, _, _, _, _.
  split; [apply (derive_eq Missing this h o 0 Ho); reflexivity |].
  split; [apply (derive_eq (With (BInstance (length h))) this h1 o vc Ho1 Hwf Hr) |].
  split; [rewrite value_at_last; simpl; f_equal; unfold vc; fold m; bit_cases |].
  split; [apply (derive_eq (Intersection (BInstance (length h))) this h1 o vc
                   Ho1 Hwf Hr) |].
  rewrite value_at_last. simpl. f_equal. unfold vc. fold m. bit_cases.
Qed.

Lemma complement_splits_mask_witness :
  ∃ c h1 u h2 i h3,
    missing 0%nat [fresh Permissions 5] = Some (c, h1)
    ∧ with_ 0%nat (BInstance c) h1 = Some (u, h2)
    ∧ value_at h2 u = Some (getMask Permissions)
    ∧ intersection 0%nat (BInstance c) h1 = Some (i, h3)
    ∧ value_at h3 i = Some 0.
Proof.
  apply (complement_splits_mask 0%nat [fresh Permissions 5]
           (fresh Permissions 5)).
  reflexivity.
Defined.

(** ** The mutators *)

(** Two [invert()] calls on an unfrozen instance leave it with
    [value & mask]: its bits inside the mask come back, the bits outside
    (which only an instance argument of the constructor can bring) are
    gone. *)
Theorem invert_twice (this : loc) (h : heap) (o : Instance) :
  h !! this = Some o → frozen o = false →
  ∃ h1 h2,
    invert this h = Some (this, h1)
    ∧ invert this h1 = Some (this, h2)
    ∧ value_at h2 this = Some (Z.land (bitfield o) (getMask (con o))).
Proof.
  intros Ho Hf.
  assert (Hlt : (this < length h)%nat) by (eapply lookup_lt_Some, Ho).
  pose proof (mutate_unfrozen Invert this h o 0 Ho Hf eq_refl) as H1.
  cbv zeta in H1. simpl mutate in H1.
  set (m := getMask (con o)) in *.
  set (v1 := mutated_value Invert (bitfield o) 0 m) in *.
  set (h1 := <[this := set_bitfield v1 o]> (h ++ [fresh (con o) v1])) in *.
  assert (Ho1 : h1 !! this = Some (set_bitfield v1 o)).
  { unfold h1. apply list_lookup_insert_eq. rewrite length_app. lia. }
  pose proof (mutate_unfrozen Invert this h1 (set_bitfield v1 o) 0 Ho1 Hf
                eq_refl) as H2.
  cbv zeta in H2. simpl mutate in H2.
  eexists h1, _. split; [exact H1 |]. split; [exact H2 |].
  unfold value_at. rewrite list_lookup_insert_eq.
  - simpl. f_equal. unfold v1. simpl. fold m. bit_cases.
  - rewrite length_app. unfold h1. rewrite length_insert, length_app. lia.
Qed.

Lemma invert_twice_witness :
  ∃ h1 h2,
    invert 0%nat [fresh Permissions 5] = Some (0%nat, h1)
    ∧ invert 0%nat h1 = Some (0%nat, h2)
    ∧ value_at h2 0%nat = Some (Z.land 5 (getMask Permissions)).
Proof.
  apply (invert_twice 0%nat [fresh Permissions 5] (fresh Permissions 5));
    reflexivity.
Defined.

Lemma within_refl (v : Z) : within v v.
Proof. unfold within. apply Z.land_lnot_diag. Qed.

Lemma within_lor_mono (a a' b b' : Z) :
  within a a' → within b b' → within (Z.lor a b) (Z.lor a' b').
Proof.
  rewrite !within_spec. intros Ha Hb n Hn. rewrite !Z.lor_spec.
  intros [H | H]%orb_prop; [rewrite (Ha n Hn H) | rewrite (Hb n Hn H)];
    [reflexivity | apply orb_true_r].
Qed.

(** When the values of a store shrink, what bits resolve to shrinks. *)
Lemma resolve_shrink (c : Class) (h h' : heap) (bits : Bit) (r : Z) :
  (∀ l o, h !! l = Some o →
          ∃ o', h' !! l = Some o' ∧ within (bitfield o) (bitfield o')) →
  resolve c h bits = Some r →
  ∃ r', resolve c h' bits = Some r' ∧ within r r'.
Proof.
  intros Hshrink. revert r.
  induction bits as [| | | | | l | bs IH | |] using Bit_nested_ind;
    intros r Hr; try (exists r; split; [exact Hr | apply within_refl]).
  - simpl in *. destruct (h !! l) as [o |] eqn:Ho; [| discriminate].
    injection Hr as <-. destruct (Hshrink l o Ho) as (o' & -> & Hin).
    exists (bitfield o'). split; [reflexivity | exact Hin].
  - revert r Hr. induction bs as [| b bs IHbs]; intros r Hr.
    + exists r. split; [exact Hr | apply within_refl].
    + inversion IH as [| ? ? IHb IHrest]; subst.
      rewrite resolve_cons in Hr.
      destruct (resolve c h b) as [rb |] eqn:Hrb; [| discriminate].
      destruct (resolve c h (BArray bs)) as [rbs |] eqn:Hrbs;
        [| discriminate].
      injection Hr as <-.
      destruct (IHb rb eq_refl) as (rb' & Hrb' & Hinb).
      destruct (IHbs IHrest rbs eq_refl) as (rbs' & Hrbs' & Hinbs).
      exists (Z.lor rb' rbs'). rewrite resolve_cons, Hrb', Hrbs'.
      split; [reflexivity | apply within_lor_mono; assumption].
Qed.

(** After [remove(bits)] on an unfrozen instance, [has(bits)] is false, and
    the instance has no bit it did not have before; this also holds when the
    argument contains the receiver itself. *)
Theorem remove_then_has (this : loc) (bit : Bit) (h : heap) (o : Instance) :
  h !! this = Some o → frozen o = false → bits_wf h bit = true →
  ∃ h' v',
    remove this bit h = Some (this, h')
    ∧ has this bit h' = Some (false, h')
    ∧ value_at h' this = Some v'
    ∧ within (bitfield o) v'.
Proof.
  intros Ho Hf Hwf.
  assert (Hlt : (this < length h)%nat) by (eapply lookup_lt_Some, Ho).
  destruct (resolve_total (con o) h bit Hwf) as [r Hr].
  pose proof (mutate_unfrozen (Remove bit) this h o r Ho Hf Hr) as Hm.
  cbv zeta in Hm. simpl in Hm.
  set (m := getMask (con o)) in *.
  set (v' := Z.land (Z.land (bitfield o) (Z.lnot r)) m) in *.
  set (h' := <[this := set_bitfield v' o]> h) in *.
  assert (Ho' : h' !! this = Some (set_bitfield v' o))
    by (apply list_lookup_insert_eq, Hlt).
  assert (Hsub : within (bitfield o) v').
  { apply within_spec. intros n Hn. unfold v'.
    rewrite !Z.land_spec. intros [[H _]%andb_prop _]%andb_prop. exact H. }
  destruct (resolve_shrink (con o) h h' bit r) as (r' & Hr' & Hin);
    [| exact Hr |].
  { intros l o0 Hl. destruct (decide (l = this)) as [-> | Hne].
    - exists (set_bitfield v' o). split; [exact Ho' |].
      assert (o0 = o) as -> by congruence. exact Hsub.
    - exists o0. split; [| apply within_refl].
      unfold h'. rewrite list_lookup_insert_ne by congruence. exact Hl. }
  exists h', v'. split; [exact Hm |]. split.
  - rewrite (has_eq this bit h' (set_bitfield v' o) r' Ho' Hr'). simpl.
    assert (Hz : Z.land v' r' = 0).
    { rewrite within_spec in Hin. bitwise n Hn.
      destruct (Z.testbit r' n) eqn:Hbit; [| apply andb_false_r].
      unfold v'. rewrite !Z.land_spec, Z.lnot_spec, (Hin n Hn Hbit) by exact Hn.
      simpl. rewrite andb_false_r. reflexivity. }
    rewrite Hz. reflexivity.
  - split; [unfold value_at; rewrite Ho'; reflexivity | exact Hsub].
Qed.

Lemma remove_then_has_witness :
  ∃ h' v',
    remove 0%nat (BArray [BInstance 0%nat; BString "Admin"])
      [fresh Permissions 3] = Some (0%nat, h')
    ∧ has 0%nat (BArray [BInstance 0%nat; BString "Admin"]) h'
      = Some (false, h')
    ∧ value_at h' 0%nat = Some v'
    ∧ within 3 v'.
Proof.
  apply (remove_then_has 0%nat (BArray [BInstance 0%nat; BString "Admin"])
           [fresh Permissions 3] (fresh Permissions 3));
    reflexivity.
Defined.



Lemma any_shape (this : loc) (bit : Bit) (h h' : heap) (b : bool) :
  any this bit h = Some (b, h') → ∃ o, h' = h ++ [o] ∧ frozen o = false.
Proof.
  unfold any, bind.
  destruct (intersection this bit h) as [[l h1] |] eqn:Hi; [| discriminate].
  apply (derive_shape (Intersection bit)) in Hi as (o & v & Ho & -> & ->).
  unfold deref. rewrite lookup_last. intros [= <- <-]. eauto.
Qed.

(** Only [freeze] freezes: when an instance is frozen after a call, either
    the call was [freeze] on that instance or the instance was frozen before
    the call.  In particular no constructor, mutator, derivation or query
    returns or produces a frozen instance. *)
Theorem only_freeze_freezes (call : Call) (h h' : heap) (u : unit) (l : loc)
    (o' : Instance) :
  exec call h = Some (u, h') → h' !! l = Some o' → frozen o' = true →
  call = CFreeze l ∨ ∃ o, h !! l = Some o ∧ frozen o = true.
Proof.
  destruct u.
  destruct call as [c bits | this mu | this | this d | this bit];
    simpl; unfold bind; intros Hexec Hl Hf.
  - rewrite new_eq in Hexec.
    destruct (resolve c h _) as [v |]; [| discriminate].
    injection Hexec as <-.
    apply lookup_snoc_inv in Hl as [Hl | ->]; [eauto | discriminate].
  - destruct (mutate mu this h) as [[l1 h1] |] eqn:Hm; [| discriminate].
    injection Hexec as <-.
    destruct (h !! this) as [o |] eqn:Ho.
    2: { destruct mu; simpl in Hm; unfold add, remove, invert, bind, deref in Hm;
           rewrite Ho in Hm; discriminate. }
    destruct (frozen o) eqn:Hfo.
    { rewrite (mutate_frozen mu this h o Ho Hfo) in Hm.
      injection Hm as <- <-. eauto. }
    destruct (resolve (con o) h (mutation_bits mu)) as [r |] eqn:Hr.
    2: { destruct mu; simpl in *;
           unfold add, remove, invert, bind, deref, resolveM in Hm;
           rewrite Ho, Hfo, ?Hr in Hm; discriminate. }
    rewrite (mutate_unfrozen mu this h o r Ho Hfo Hr) in Hm.
    injection Hm as <- <-. right.
    destruct mu;
      apply lookup_insert_inv in Hl as [Hl | [-> ->]];
      try (simpl in Hf; congruence); eauto.
    apply lookup_snoc_inv in Hl as [Hl | ->]; [eauto | discriminate].
  - destruct (h !! this) as [o |] eqn:Ho.
    2: { unfold freeze, bind, deref in Hexec. rewrite Ho in Hexec.
         discriminate. }
    rewrite (freeze_eq this h o Ho) in Hexec. injection Hexec as <-.
    apply lookup_insert_inv in Hl as [Hl | [-> ->]]; [eauto | left; reflexivity].
  - destruct (derive d this h) as [[l1 h1] |] eqn:Hd; [| discriminate].
    injection Hexec as <-.
    apply derive_shape in Hd as (o & v & Ho & -> & ->).
    apply lookup_snoc_inv in Hl as [Hl | ->]; [eauto | discriminate].
  - destruct (any this bit h) as [[b h1] |] eqn:Ha; [| discriminate].
    injection Hexec as <-. apply any_shape in Ha as (o & -> & Hfo).
    apply lookup_snoc_inv in Hl as [Hl | ->]; [eauto | congruence].
Qed.

Lemma only_freeze_freezes_witness :
  CFreeze 0%nat = CFreeze 0%nat
  ∨ ∃ o, [fresh Permissions 3] !! 0%nat = Some o ∧ frozen o = true.
Proof.
  apply (only_freeze_freezes (CFreeze 0%nat) [fresh Permissions 3]
           [set_frozen true (fresh Permissions 3)] tt 0%nat
           (set_frozen true (fresh Permissions 3)));
    reflexivity.
Defined.

(** ** Enumeration and conversion *)

(** What [has] answers for a flag name, as a function of the instance. *)
Lemma has_name (this : loc) (k : string) (h : heap) (o : Instance) :
  h !! this = Some o →
  has this (BString k) h
  = Some (negb (Z.land (bitfield o) (default 0 (get (Flags (con o)) k)) =? 0),
          h).
Proof.
  intros Ho. apply has_eq; [exact Ho |]. simpl. unfold safeIn.
  destruct (get (Flags (con o)) k); reflexivity.
Qed.

Lemma toObject_loop_spec (this : loc) (ks : list string)
    (r : gmap string bool) (h : heap) (o : Instance) :
  h !! this = Some o →
  ∃ r', toObject_loop this ks r h = Some (r', h)
        ∧ ∀ k, r' !! k
               = if decide (k ∈ ks ∧ k ≠ "__proto__"%string)
                 then Some (negb (Z.land (bitfield o)
                                    (default 0 (get (Flags (con o)) k)) =? 0))
                 else r !! k.
Proof.
  intros Ho. revert r.
  induction ks as [| k0 ks IH]; intros r; cbn [toObject_loop].
  - exists r. split; [reflexivity |]. intros k.
    rewrite decide_False; [reflexivity |]. intros [H _]. inversion H.
  - unfold bind. rewrite (has_name this k0 h o Ho).
    destruct (IH (Object_assign r k0
                    (negb (Z.land (bitfield o)
                             (default 0 (get (Flags (con o)) k0)) =? 0))))
      as (r' & Hrun & Hget).
    exists r'. split; [exact Hrun |].
    intros k. rewrite Hget. unfold Object_assign.
    destruct (decide (k ∈ ks ∧ k ≠ "__proto__"%string)) as [[Hin Hne] | Hnot].
    + rewrite decide_True; [reflexivity |]. split; [right; exact Hin | exact Hne].
    + destruct (decide (k0 = "__proto__"%string)) as [Hp | Hp].
      * rewrite decide_False; [reflexivity |].
        intros [[-> | Hin]%elem_of_cons Hne]; [congruence | tauto].
      * destruct (decide (k0 = k)) as [-> | Hk].
        -- rewrite lookup_insert_eq.
           rewrite decide_True; [reflexivity |]. split; [left | exact Hp].
        -- rewrite lookup_insert_ne by exact Hk.
           rewrite decide_False; [reflexivity |].
           intros [[-> | Hin]%elem_of_cons Hne]; [congruence | tauto].
Qed.

(** [toObject()] and [toArray()] describe the same set of flags: the object
    has an own property for exactly the declared names other than
    [__proto__] (which [Object.assign] does not store), and its value for a
    name is true iff [toArray()] lists the name; neither call changes the
    store. *)
Theorem toObject_agrees_with_toArray (h : heap) (this : loc) (o : Instance) :
  built h → h !! this = Some o →
  ∃ (r : gmap string bool) names,
    toObject this h = Some (r, h)
    ∧ toArray this h = Some (names, h)
    ∧ ∀ k, r !! k
           = if decide (k ∈ Object_keys (Flags (con o))
                        ∧ k ≠ "__proto__"%string)
             then Some (bool_decide (k ∈ names))
             else None.
Proof.
  intros Hb Ho.
  destruct (toObject_loop_spec this (Object_keys (Flags (con o))) ∅ h o Ho)
    as (r & Hrun & Hget).
  exists r, (yield_present (bitfield o) (orderedFlags (con o))).
  split; [unfold toObject, bind, deref; rewrite Ho; exact Hrun |].
  split; [apply iterator_spec; assumption |].
  intros k. rewrite Hget.
  destruct (decide (k ∈ Object_keys (Flags (con o))
                    ∧ k ≠ "__proto__"%string)) as [[Hin _] | _];
    [| apply lookup_empty].
  apply get_is_Some in Hin as [v Hv]. rewrite Hv. simpl. f_equal.
  destruct (Z.land (bitfield o) v =? 0) eqn:Hz; simpl; symmetry.
  - apply Z.eqb_eq in Hz. apply bool_decide_eq_false.
    intros (v' & Hv'%orderedFlags_elem & Hne)%yield_present_elem.
    congruence.
  - apply Z.eqb_neq in Hz. apply bool_decide_eq_true.
    apply yield_present_elem. exists v. split; [| exact Hz].
    apply orderedFlags_elem, Hv.
Qed.

Lemma toObject_agrees_with_toArray_witness :
  ∃ (r : gmap string bool) names,
    toObject 0%nat [fresh Permissions 3] = Some (r, [fresh Permissions 3])
    ∧ toArray 0%nat [fresh Permissions 3]
      = Some (names, [fresh Permissions 3])
    ∧ ∀ k, r !! k
           = if decide (k ∈ Object_keys (Flags Permissions)
                        ∧ k ≠ "__proto__"%string)
             then Some (bool_decide (k ∈ names))
             else None.
Proof.
  apply (toObject_agrees_with_toArray [fresh Permissions 3] 0%nat
           (fresh Permissions 3)).
  - exists [CNew Permissions (BArray [BString "Write"; BString "Read"])].
    reflexivity.
  - reflexivity.
Defined.

Lemma ownEntries_names (c : Class) : (ownEntries c).*1 = Object_keys (Flags c).
Proof.
  unfold ownEntries, Object_keys, Reflect_ownKeys.
  rewrite <- list_fmap_compose.
  induction (Flags c).*1 as [| k ks IH]; simpl; [reflexivity |].
  f_equal. exact IH.
Qed.

(** [keys()] and [values()] are the two columns of [entries()]: [keys()]
    lists every declared name exactly as often as it is declared,
    [values()] ascends, both have one element per declared flag, and
    [toArray()] is [keys()] with some names left out, in the same order. *)
Theorem keys_and_values_of_entries (h : heap) (this : loc) (o : Instance) :
  built h → h !! this = Some o →
  ∃ ks vs es names,
    keys this h = Some (ks, h)
    ∧ values this h = Some (vs, h)
    ∧ entries this h = Some (es, h)
    ∧ toArray this h = Some (names, h)
    ∧ ks = es.*1 ∧ vs = es.*2
    ∧ ks ≡ₚ Object_keys (Flags (con o))
    ∧ StronglySorted Z.le vs
    ∧ length vs = length (Flags (con o))
    ∧ sublist names ks.
Proof.
  intros Hb Ho.
  pose proof (built_consistent h Hb this o Ho) as Hflags.
  assert (Hperm : orderedFlags (con o) ≡ₚ ownEntries (con o))
    by apply Array_sort_perm.
  exists (orderedFlags (con o)).*1, (orderedFlags (con o)).*2,
    (orderedFlags (con o)), (yield_present (bitfield o) (orderedFlags (con o))).
  split; [unfold keys, bind, deref; rewrite Ho, Hflags; reflexivity |].
  split; [unfold values, bind, deref; rewrite Ho, Hflags; reflexivity |].
  split; [unfold entries, bind, deref; rewrite Ho, Hflags; reflexivity |].
  split; [apply iterator_spec; assumption |].
  split; [reflexivity |]. split; [reflexivity |].
  split; [rewrite Hperm; rewrite ownEntries_names; reflexivity |].
  split.
  { apply (StronglySorted_fmap snd (λ a b : string * Z, a.2 ≤ b.2) Z.le);
      [auto | apply Array_sort_ascending]. }
  split.
  { rewrite length_fmap, Hperm. unfold ownEntries, Reflect_ownKeys.
    rewrite !length_fmap. reflexivity. }
  apply yield_present_sublist.
Qed.

Lemma keys_and_values_of_entries_witness :
  ∃ ks vs es names,
    keys 0%nat [fresh WithNone 1] = Some (ks, [fresh WithNone 1])
    ∧ values 0%nat [fresh WithNone 1] = Some (vs, [fresh WithNone 1])
    ∧ entries 0%nat [fresh WithNone 1] = Some (es, [fresh WithNone 1])
    ∧ toArray 0%nat [fresh WithNone 1] = Some (names, [fresh WithNone 1])
    ∧ ks = es.*1 ∧ vs = es.*2
    ∧ ks ≡ₚ Object_keys (Flags WithNone)
    ∧ StronglySorted Z.le vs
    ∧ length vs = length (Flags WithNone)
    ∧ sublist names ks.
Proof.
  apply (keys_and_values_of_entries [fresh WithNone 1] 0%nat
           (fresh WithNone 1)).
  - exists [CNew WithNone (BString "Read")]. reflexivity.
  - reflexivity.
Defined.

Lemma find_first_spec (predicate : string → bool) (names : list string) :
  match find_first predicate names with
  | Some f =>
      ∃ before after,
        names = before ++ f :: after ∧ predicate f = true
        ∧ ∀ x, x ∈ before → predicate x = false
  | None => ∀ x, x ∈ names → predicate x = false
  end.
Proof.
  induction names as [| f names IH]; simpl.
  - intros x Hx. inversion Hx.
  - destruct (predicate f) eqn:Hf.
    + exists [], names. split; [reflexivity |]. split; [exact Hf |].
      intros x Hx. inversion Hx.
    + destruct (find_first predicate names) as [g |].
      * destruct IH as (before & after & -> & Hg & Hbefore).
        exists (f :: before), after. split; [reflexivity |].
        split; [exact Hg |].
        intros x [-> | Hx]%elem_of_cons; auto.
      * intros x [-> | Hx]%elem_of_cons; auto.
Qed.

(** [find] looks at the present flags only: it returns the first name of
    [toArray()] that satisfies the predicate, or nothing when no present
    flag does.  When [find] returns a flag, [findIndex] does not return -1;
    the converse fails, since [findIndex] also tests the absent flags. *)
Theorem find_among_present_flags (h : heap) (this : loc) (o : Instance)
    (predicate : string → bool) :
  built h → h !! this = Some o →
  ∃ res names i,
    find this predicate h = Some (res, h)
    ∧ toArray this h = Some (names, h)
    ∧ findIndex this predicate h = Some (i, h)
    ∧ match res with
      | Some f =>
          (∃ before after,
             names = before ++ f :: after ∧ predicate f = true
             ∧ ∀ x, x ∈ before → predicate x = false)
          ∧ 0 ≤ i
      | None => ∀ x, x ∈ names → predicate x = false
      end.
Proof.
  intros Hb Ho.
  pose proof (built_consistent h Hb this o Ho) as Hflags.
  pose proof (iterator_spec h this o Hb Ho) as Hiter.
  set (names := yield_present (bitfield o) (orderedFlags (con o))) in *.
  exists (find_first predicate names), names,
    (findIndex_from predicate 0 (orderedFlags (con o))).
  split; [unfold find, bind; rewrite Hiter; reflexivity |].
  split; [exact Hiter |].
  split; [unfold findIndex, bind, deref; rewrite Ho, Hflags; reflexivity |].
  pose proof (find_first_spec predicate names) as Hfind.
  destruct (find_first predicate names) as [f |]; [| exact Hfind].
  split; [exact Hfind |].
  destruct Hfind as (before & after & Hnames & Hf & _).
  assert (Hin : f ∈ names) by (rewrite Hnames; apply elem_of_app; right; left).
  apply yield_present_elem in Hin as (v & Hv & _).
  destruct (findIndex_from_spec predicate 0 (orderedFlags (con o)))
    as [[_ Hall] | (n & _ & _ & -> & _)]; [lia | | lia].
  rewrite (Hall f v Hv) in Hf. discriminate.
Qed.

Lemma find_among_present_flags_witness :
  ∃ res names i,
    find 0%nat (λ k, bool_decide (k ≠ "Read"%string)) [fresh Permissions 9]
    = Some (res, [fresh Permissions 9])
    ∧ toArray 0%nat [fresh Permissions 9]
      = Some (names, [fresh Permissions 9])
    ∧ findIndex 0%nat (λ k, bool_decide (k ≠ "Read"%string))
        [fresh Permissions 9] = Some (i, [fresh Permissions 9])
    ∧ match res with
      | Some f =>
          (∃ before after,
             names = before ++ f :: after
             ∧ bool_decide (f ≠ "Read"%string) = true
             ∧ ∀ x, x ∈ before → bool_decide (x ≠ "Read"%string) = false)
          ∧ 0 ≤ i
      | None => ∀ x, x ∈ names → bool_decide (x ≠ "Read"%string) = false
      end.
Proof.
  apply (find_among_present_flags [fresh Permissions 9] 0%nat
           (fresh Permissions 9) (λ k, bool_decide (k ≠ "Read"%string))).
  - exists [CNew Permissions (BNumber 9)]. reflexivity.
  - reflexivity.
Defined.

Lemma fold_push_fmap {R} (callback : string → R) (names : list string)
    (r : list R) :
  fold_left (λ r f, r ++ [callback f]) names r = r ++ (callback <$> names).
Proof.
  revert r. induction names as [| f names IH]; intros r; simpl.
  - by rewrite app_nil_r.
  - rewrite IH, <- app_assoc. reflexivity.
Qed.

(** [map(callback)] is [toArray().map(callback)]: one result per present
    flag, in ascending order of declared value, and the store is left as it
    was. *)
Theorem map_over_present_flags {R} (h : heap) (this : loc) (o : Instance)
    (callback : string → R) :
  h !! this = Some o →
  ∃ names,
    toArray this h = Some (names, h)
    ∧ map_ this callback h = Some (callback <$> names, h)
    ∧ ∀ i, (callback <$> names) !! i = callback <$> names !! i.
Proof.
  intros Ho. exists (yield_present (bitfield o) (validFlags o)).
  split; [unfold toArray, Symbol_iterator, bind, deref; rewrite Ho; reflexivity |].
  split.
  - unfold map_, Symbol_iterator, bind, deref, ret. rewrite Ho.
    rewrite fold_push_fmap. reflexivity.
  - intros i. apply list_lookup_fmap.
Qed.

Lemma map_over_present_flags_witness :
  ∃ names,
    toArray 0%nat [fresh Permissions 6] = Some (names, [fresh Permissions 6])
    ∧ map_ 0%nat String.length [fresh Permissions 6]
      = Some (String.length <$> names, [fresh Permissions 6])
    ∧ ∀ i, (String.length <$> names) !! i = String.length <$> names !! i.
Proof.
  apply (map_over_present_flags [fresh Permissions 6] 0%nat
           (fresh Permissions 6) String.length).
  reflexivity.
Defined.

(** ** The mask after derivations and mutations, and empty questions *)

(** Whatever the receiver holds (also bits outside its mask, brought in by
    an instance argument of the constructor) and whatever the argument, the
    instance a derivation returns is within the mask, and so is an unfrozen
    receiver after a mutator. *)
Theorem results_are_within_mask (this : loc) (h : heap) (o : Instance) :
  h !! this = Some o →
  (∀ d, bits_wf h (derivation_bits d) = true →
        ∃ l h' o', derive d this h = Some (l, h')
                   ∧ h' !! l = Some o' ∧ invariant o')
  ∧ (∀ mu, frozen o = false → bits_wf h (mutation_bits mu) = true →
           ∃ h' o', mutate mu this h = Some (this, h')
                    ∧ h' !! this = Some o' ∧ invariant o').
Proof.
  intros Ho.
  assert (Hlt : (this < length h)%nat) by (eapply lookup_lt_Some, Ho).
  split.
  - intros d Hwf.
    destruct (derive_total d this h (mk_is_Some _ _ Ho) Hwf) as [[l h'] Hd].
    destruct (derive_shape d this h h' l Hd) as (o1 & v & Ho1 & -> & ->).
    eexists _, _, _. split; [exact Hd |]. split; [apply lookup_last |].
    apply within_land_mask.
  - intros mu Hf Hwf.
    destruct (resolve_total (con o) h _ Hwf) as [r Hr].
    pose proof (mutate_unfrozen mu this h o r Ho Hf Hr) as Hm.
    cbv zeta in Hm.
    eexists _, _. split; [exact Hm |]. split.
    + destruct mu; apply list_lookup_insert_eq; rewrite ?length_app; lia.
    + unfold invariant. simpl. destruct mu; simpl; apply within_land_mask.
Qed.

Lemma results_are_within_mask_witness :
  (∀ d, bits_wf mixed_store (derivation_bits d) = true →
        ∃ l h' o', derive d 1%nat mixed_store = Some (l, h')
                   ∧ h' !! l = Some o' ∧ invariant o')
  ∧ (∀ mu, frozen (fresh ReadOnly 2) = false →
           bits_wf mixed_store (mutation_bits mu) = true →
           ∃ h' o', mutate mu 1%nat mixed_store = Some (1%nat, h')
                    ∧ h' !! 1%nat = Some o' ∧ invariant o').
Proof.
  apply (results_are_within_mask 1%nat mixed_store (fresh ReadOnly 2)).
  reflexivity.
Defined.

(** A question about nothing is answered with false: [has] returns false
    for an unknown flag name, for [undefined], for the empty array, for a
    value of a type that no branch of [resolve] tests for ([null], a symbol,
    a plain object) and for an integer with no bit inside the mask.  On a
    number that is not an integer [has] does not answer: it throws. *)
Theorem has_nothing_is_false (this : loc) (h : heap) (o : Instance) :
  h !! this = Some o →
  (∀ k, get (Flags (con o)) k = None →
        has this (BString k) h = Some (false, h))
  ∧ has this BUndefined h = Some (false, h)
  ∧ has this (BArray []) h = Some (false, h)
  ∧ has this BOther h = Some (false, h)
  ∧ (∀ n, Z.land n (getMask (con o)) = 0 →
          has this (BNumber n) h = Some (false, h)
          ∧ has this (BBigInt n) h = Some (false, h))
  ∧ has this BNonInteger h = None.
Proof.
  intros Ho.
  assert (Hzero : ∀ bit, resolve (con o) h bit = Some 0 →
                         has this bit h = Some (false, h)).
  { intros bit Hr. rewrite (has_eq this bit h o 0 Ho Hr).
    rewrite Z.land_0_r. reflexivity. }
  split.
  { intros k Hk. apply Hzero. simpl. unfold safeIn. rewrite Hk. reflexivity. }
  split; [apply Hzero; reflexivity |].
  split; [apply Hzero; reflexivity |].
  split; [apply Hzero; reflexivity |].
  split.
  { intros n Hn. split; apply Hzero; simpl; rewrite Hn; reflexivity. }
  unfold has, bind, deref, resolveM. rewrite Ho. reflexivity.
Qed.

Lemma has_nothing_is_false_witness :
  has 0%nat (BString "NotAFlag") [fresh Permissions 15]
  = Some (false, [fresh Permissions 15])
  ∧ has 0%nat (BNumber 48) [fresh Permissions 15]
    = Some (false, [fresh Permissions 15]).
Proof.
  destruct (has_nothing_is_false 0%nat [fresh Permissions 15]
              (fresh Permissions 15) eq_refl)
    as (Hname & _ & _ & _ & Hnumber & _).
  split; [apply Hname; reflexivity |].
  apply (Hnumber 48). reflexivity.
Defined.
